(** * iTwinUI-react: Tree and ComboBox view-state logic

    A shallow embedding of the keyboard navigation and flattening pass of
    [src/core/Tree/Tree.tsx], of the list item rendered by [TreeNode], and of
    the filtering, focus management and rendering decisions of
    [src/core/ComboBox/ComboBox.tsx].

    Conventions.
    - An optional property ([isExpanded?: boolean], [id?: string]) is an
      [option]; [None] stands for an absent or [undefined] property.
    - A JavaScript exception is a [Throw]; a recursion that exceeds the fuel
      of the model is [OutOfFuel].
    - DOM elements and heap objects have an identity (a number); two
      references are [===] exactly when the identities are equal.
    - Strings are sequences of characters below 256 (Latin-1); case
      conversion and trimming are the ones of that range. *)

From Stdlib Require Import Ascii.
From stdpp Require Import gmap strings list sorting pretty.

(** ** JavaScript values the components rely on *)

Module JS.

Inductive exn := TypeError | ReferenceError | ReactError.

Inductive completion (A : Type) : Type :=
| Normal (a : A)
| Throw (e : exn)
| OutOfFuel.
Arguments Normal {A} a.
Arguments Throw {A} e.
Arguments OutOfFuel {A}.

(** [!!b] for an optional boolean property. *)
Definition truthy (b : option bool) : bool := default false b.

(** An optional property of an object, where an object spread tells an own
    key that holds [undefined] from a key that is absent. *)
Inductive property (A : Type) : Type :=
| Absent
| Undefined
| Present (a : A).
Arguments Absent {A}.
Arguments Undefined {A}.
Arguments Present {A} a.

#[global] Instance property_eq_dec {A} `{EqDecision A} : EqDecision (property A).
Proof. solve_decision. Defined.

(** The value read from the property: [undefined] also when it is absent. *)
Definition read {A} (p : property A) : option A :=
  match p with
  | Present a => Some a
  | Absent | Undefined => None
  end.

(** [s] as a condition: the empty string is falsy. *)
Definition nonEmpty (s : string) : bool := negb (String.eqb s "").

(** [xs.findIndex(p)]: the first position satisfying [p], [-1] when none. *)
Fixpoint findIndex {A} (p : A → bool) (xs : list A) : Z :=
  match xs with
  | [] => (-1)%Z
  | x :: xs' =>
      if p x then 0%Z
      else let r := findIndex p xs' in if decide (r = (-1)%Z) then (-1)%Z else (r + 1)%Z
  end.

(** [xs[i]] for a number [i]: [undefined] outside the array. *)
Definition at_index {A} (xs : list A) (i : Z) : option A :=
  if decide (0 ≤ i)%Z then xs !! Z.to_nat i else None.

(** [xs.forEach(callback)] where the callback threads a state and may throw. *)
Fixpoint forEach {A S} (xs : list A) (callback : A → S → completion S) (s : S)
  : completion S :=
  match xs with
  | [] => Normal s
  | x :: xs' =>
      match callback x s with
      | Normal s' => forEach xs' callback s'
      | Throw e => Throw e
      | OutOfFuel => OutOfFuel
      end
  end.

(** [s.toLowerCase()] *)
Definition lowerChar (c : ascii) : ascii :=
  let n := nat_of_ascii c in
  if (65 <=? n) && (n <=? 90) || (192 <=? n) && (n <=? 214) || (216 <=? n) && (n <=? 222)
  then ascii_of_nat (n + 32) else c.

Fixpoint toLowerCase (s : string) : string :=
  match s with
  | EmptyString => EmptyString
  | String c s' => String (lowerChar c) (toLowerCase s')
  end.

(** White space as [trim] sees it: tab, line feed, vertical tab, form feed,
    carriage return, space, no-break space. *)
Definition isSpace (c : ascii) : bool :=
  bool_decide (nat_of_ascii c ∈ [9; 10; 11; 12; 13; 32; 160]).

Fixpoint trimStart (s : string) : string :=
  match s with
  | EmptyString => EmptyString
  | String c s' => if isSpace c then trimStart s' else s
  end.

Fixpoint trimEnd (s : string) : string :=
  match s with
  | EmptyString => EmptyString
  | String c s' =>
      match trimEnd s' with
      | EmptyString => if isSpace c then EmptyString else String c EmptyString
      | rest => String c rest
      end
  end.

(** [s.trim()] *)
Definition trim (s : string) : string := trimEnd (trimStart s).

Fixpoint startsWith (s prefix : string) : bool :=
  match prefix, s with
  | EmptyString, _ => true
  | String _ _, EmptyString => false
  | String p prefix', String c s' => bool_decide (p = c) && startsWith s' prefix'
  end.

(** [s.includes(search)] *)
Fixpoint includes (s search : string) : bool :=
  startsWith s search ||
  match s with
  | EmptyString => false
  | String _ s' => includes s' search
  end.

(** [xs.find((x, index) => p x index)] *)
Fixpoint findFrom {A} (p : A → nat → bool) (start : nat) (xs : list A) : option A :=
  match xs with
  | [] => None
  | x :: xs' => if p x start then Some x else findFrom p (S start) xs'
  end.

Definition find {A} (p : A → nat → bool) (xs : list A) : option A := findFrom p 0 xs.

(** [xs.map(f)] where [f] may throw. *)
Fixpoint mapM {A B} (f : A → completion B) (xs : list A) : completion (list B) :=
  match xs with
  | [] => Normal []
  | x :: xs' =>
      match f x with
      | Normal y =>
          match mapM f xs' with
          | Normal ys => Normal (y :: ys)
          | Throw e => Throw e
          | OutOfFuel => OutOfFuel
          end
      | Throw e => Throw e
      | OutOfFuel => OutOfFuel
      end
  end.

(** A [const] of a function body at the time a closure reads it. *)
Inductive binding (A : Type) : Type :=
| Uninitialized
| Initialized (a : A).
Arguments Uninitialized {A}.
Arguments Initialized {A} a.

(** A property value of a rendered element. *)
Inductive PropValue :=
| PUndefined
| PStr (s : string)
| PBool (b : bool)
| PHandler (name : string).

(** [{...base, ...spread}]: the properties of [spread] win. *)
Definition spreadOver (base spread : gmap string PropValue) : gmap string PropValue :=
  spread ∪ base.

(** The attribute a rendered element carries for a property: none when the
    property is absent or [undefined]. *)
Definition attribute (props : gmap string PropValue) (name : string) : option PropValue :=
  match props !! name with
  | Some PUndefined | None => None
  | Some v => Some v
  end.

End JS.

Import JS.

(** ** Tree.tsx *)

Module Tree.

(** *** The DOM as [handleKeyDown] reads it *)

(** One element matched by [.iui-tree-node] under the tree's [ul]. *)
Record NodeElement := {
  elem : nat;
  (** the class list contains [iui-disabled] *)
  iui_disabled : bool;
  (** [querySelector('.iui-tree-node-content-expander-icon')]: [None] is
      [null]; [Some b] is an icon whose class list contains
      [iui-tree-node-content-expander-icon-expanded] exactly when [b] *)
  expander : option bool;
  (** [parentElement?.id] *)
  parentId : string;
  (** [parentElement?.lastChild.getAttribute('aria-owns')?.split(', ')] *)
  parentOwns : option (list string)
}.

Record Dom := {
  (** every [.iui-tree-node] under [treeRef.current], in document order *)
  treeNodes : list NodeElement;
  (** the identity of [ownerDocument.activeElement] *)
  activeElement : nat
}.

Inductive Effect :=
| Focus (e : nat)
| Click (e : nat)
| ClickExpander (e : nat)
| PreventDefault.

#[global] Instance Effect_eq_dec : EqDecision Effect.
Proof. solve_decision. Defined.

(** [querySelectorAll('.iui-tree-node:not(.iui-disabled)')] *)
Definition enabledNodes (dom : Dom) : list NodeElement :=
  filter (λ n, iui_disabled n = false) (treeNodes dom).

(** The loop of the [ArrowLeft] case: the first node whose parent's
    [aria-owns] lists the id of the current node's parent. *)
Definition parentIndexOf (nodes : list NodeElement) (current : NodeElement) : Z :=
  findIndex
    (λ n, match parentOwns n with
          | Some owns => bool_decide (parentId current ∈ owns)
          | None => false
          end)
    nodes.

(** The tail of the handler: focus [nodes[newIndex]] when it is in range. *)
Definition focusAt (nodes : list NodeElement) (done : list Effect) (newIndex : Z)
  : completion (list Effect) :=
  if decide (0 ≤ newIndex ∧ newIndex < Z.of_nat (length nodes))%Z then
    match at_index nodes newIndex with
    | Some n => Normal (done ++ [Focus (elem n); PreventDefault])
    | None => Throw TypeError
    end
  else Normal done.

Definition handleKeyDown (dom : Dom) (key : string) : completion (list Effect) :=
  let nodes := enabledNodes dom in
  if decide (length nodes = 0) then Normal []
  else
    let currentIndex := findIndex (λ n, bool_decide (elem n = activeElement dom)) nodes in
    match at_index nodes currentIndex with
    | None => Throw TypeError
    | Some current =>
        if decide (key = "ArrowDown") then focusAt nodes [] (currentIndex + 1)
        else if decide (key = "ArrowUp") then focusAt nodes [] (currentIndex - 1)
        else if decide (key = "ArrowLeft") then
          match expander current with
          | Some true => focusAt nodes [ClickExpander (elem current)] (-1)
          | _ =>
              let parentIndex := parentIndexOf nodes current in
              if decide (parentIndex ≠ (-1)%Z) then focusAt nodes [] parentIndex
              else focusAt nodes [] (currentIndex - 1)
          end
        else if decide (key = "ArrowRight") then
          match expander current with
          | Some false => Normal [ClickExpander (elem current)]
          | _ => focusAt nodes [] (currentIndex + 1)
          end
        else if decide (key = "Enter" ∨ key = " " ∨ key = "Spacebar") then
          Normal [Click (elem current); PreventDefault]
        else focusAt nodes [] (-1)
    end.

Definition Disabled (n : NodeElement) : Prop := iui_disabled n = true.
Definition Enabled (n : NodeElement) : Prop := iui_disabled n = false.

(** The active element once the effects of a handler run have happened. *)
Definition activeAfter (dom : Dom) (effects : list Effect) : nat :=
  fold_left (λ a e, match e with Focus x => x | _ => a end) effects (activeElement dom).

(** Modelled from the spec: the browser is not among the sources. "User
    input events (click, key press, focus/blur)" reach the handler first;
    the default action of a key the handler did not prevent runs afterwards.
    Of the default actions, the one of Tab (with or without Shift) moves the
    focus: to the next element of the tab order, [tabTarget a] for the active
    element [a], which may be a checkbox or an expander button inside a node,
    or an element outside the tree. *)
Definition defaultAction (tabTarget : nat → nat) (key : string) (effects : list Effect)
    (active : nat) : nat :=
  if bool_decide (key = "Tab") && negb (bool_decide (PreventDefault ∈ effects))
  then tabTarget active else active.

(** A key pressed in the tree while its rendered nodes stay as they are: the
    handler runs and its [focus()] calls move the active element, then the
    default action of the key. *)
Definition pressKey (tabTarget : nat → nat) (dom : completion Dom) (key : string)
  : completion Dom :=
  match dom with
  | Normal d =>
      match handleKeyDown d key with
      | Normal effects =>
          Normal {| treeNodes := treeNodes d;
                    activeElement :=
                      defaultAction tabTarget key effects (activeAfter d effects) |}
      | Throw e => Throw e
      | OutOfFuel => OutOfFuel
      end
  | failed => failed
  end.

Definition pressKeys (tabTarget : nat → nat) (dom : Dom) (keys : list string)
  : completion Dom :=
  foldl (pressKey tabTarget) (Normal dom) keys.

Definition focusAfterKeys (tabTarget : nat → nat) (dom : Dom) (keys : list string)
  : completion nat :=
  match pressKeys tabTarget dom keys with
  | Normal d => Normal (activeElement d)
  | Throw e => Throw e
  | OutOfFuel => OutOfFuel
  end.

(** *** The flattening pass ([flatNodesList]) *)

Record NodeData (T : Type) := {
  subNodes : option (list T);
  nodeId : string;
  node : T;
  isExpanded : option bool;
  isDisabled : option bool;
  depth : option nat
}.
Arguments subNodes {T} _.
Arguments nodeId {T} _.
Arguments node {T} _.
Arguments isExpanded {T} _.
Arguments isDisabled {T} _.
Arguments depth {T} _.

(** [flatNode.depth = d] *)
Definition setDepth {T} (d : nat) (flatNode : NodeData T) : NodeData T :=
  {| subNodes := subNodes flatNode; nodeId := nodeId flatNode; node := node flatNode;
     isExpanded := isExpanded flatNode; isDisabled := isDisabled flatNode;
     depth := Some d |}.

(** The [NodeData] objects live in a store, by identity: [getNode] returns a
    reference, the pass writes through it and pushes the reference. *)
Abbreviation heap T := (gmap nat (NodeData T)).

(** The caller's [getNode]: it returns a reference to a [NodeData] object and
    the store it leaves (it may allocate the object, or hand out one that
    exists). *)
Abbreviation GetNode T := (T → heap T → nat * heap T).

Section Flatten.
Context {T : Type}.
Variable getNode : GetNode T.

Fixpoint addSubNodes (fuel : nat) (element : T) (depth : nat)
    (st : heap T * list nat) : completion (heap T * list nat) :=
  match fuel with
  | 0 => OutOfFuel
  | S fuel' =>
      let '(flatNode, h1) := getNode element (fst st) in
      match h1 !! flatNode with
      | None => Throw TypeError
      | Some obj =>
          let obj' := setDepth depth obj in
          let h2 := <[flatNode := obj']> h1 in
          let flatList := snd st ++ [flatNode] in
          if truthy (isExpanded obj') then
            match subNodes obj' with
            | Some subs =>
                forEach subs (λ subNode, addSubNodes fuel' subNode (depth + 1)) (h2, flatList)
            | None => Normal (h2, flatList)
            end
          else Normal (h2, flatList)
      end
  end.

Definition flatNodesList (fuel : nat) (data : list T) (h : heap T)
  : completion (heap T * list nat) :=
  forEach data (λ element, addSubNodes fuel element 0) (h, []).

End Flatten.

(** The [nodeDepth] each entry is rendered with: [flatNode.depth], read when
    the list is mapped, after the whole pass. *)
Definition renderedDepths {T} (h : heap T) (flatList : list nat) : list (option nat) :=
  (λ flatNode, h !! flatNode ≫= depth) <$> flatList.

(** What the list is mapped to: the key and the [nodeDepth] of each entry. *)
Definition renderedNodes {T} (r : completion (heap T * list nat))
  : completion (list (option (string * option nat))) :=
  match r with
  | Normal (h, flatList) =>
      Normal ((λ flatNode, (λ obj, (nodeId obj, depth obj)) <$> h !! flatNode) <$> flatList)
  | Throw e => Throw e
  | OutOfFuel => OutOfFuel
  end.

(** *** What a flattened list should be *)

Section Shape.
Context {T : Type}.
(** The node a [getNode] describes for an element, as a value. *)
Variable describe : T → NodeData T.

Definition children (e : T) : list T := default [] (subNodes (describe e)).

(** [Shown r p e]: below [r], the index path [p] leads to [e], and every node
    on the way from [r] down to the parent of [e] is expanded. *)
Inductive Shown : T → list nat → T → Prop :=
| Shown_here r : Shown r [] r
| Shown_child r j c p e :
    truthy (isExpanded (describe r)) = true →
    children r !! j = Some c →
    Shown c p e →
    Shown r (j :: p) e.

(** A path from the roots: the index of a root in [data], then child indices. *)
Definition ShownIn (data : list T) (path : list nat) (e : T) : Prop :=
  match path with
  | [] => False
  | i :: p => ∃ r, data !! i = Some r ∧ Shown r p e
  end.

(** Depth-first preorder on paths: a node before its descendants, a subtree
    before the subtrees of later siblings. *)
Fixpoint preorder_lt (p q : list nat) : Prop :=
  match p, q with
  | [], [] => False
  | [], _ :: _ => True
  | _ :: _, [] => False
  | i :: p', j :: q' => i < j ∨ (i = j ∧ preorder_lt p' q')
  end.

(** The flattened list [flatList], read in the store [h], is the list of the
    shown nodes, in preorder, each with its distance from its root as depth. *)
Definition Flattened (data : list T) (h : heap T) (flatList : list nat) : Prop :=
  ∃ paths : list (list nat),
    (∀ p, p ∈ paths ↔ ∃ e, ShownIn data p e) ∧
    StronglySorted preorder_lt paths ∧
    Forall2 (λ flatNode p, ∃ e, ShownIn data p e ∧
               h !! flatNode = Some (setDepth (length p - 1) (describe e)))
            flatList paths.

(** A [getNode] that builds a new object on every call, from the element
    alone. *)
Definition allocates (getNode : GetNode T) : Prop :=
  ∀ e h, ∃ l, h !! l = None ∧ getNode e h = (l, <[l := describe e]> h).

(** The relative paths of the nodes shown below [e] (the reference traversal
    the pass is compared with). *)
Fixpoint blocks (walk : T → list (list nat)) (j : nat) (cs : list T) : list (list nat) :=
  match cs with
  | [] => []
  | c :: cs' => ((j ::.) <$> walk c) ++ blocks walk (S j) cs'
  end.

Fixpoint walk (fuel : nat) (e : T) : list (list nat) :=
  match fuel with
  | 0 => []
  | S fuel' =>
      [] :: (if truthy (isExpanded (describe e)) then blocks (walk fuel') 0 (children e) else [])
  end.

(** The entry pushed for the node at relative path [q] below [e], when [e]
    is visited at depth [d]. *)
Definition entry (h : heap T) (e : T) (d : nat) (flatNode : nat) (q : list nat) : Prop :=
  ∃ x, Shown e q x ∧ h !! flatNode = Some (setDepth (d + length q) (describe x)).

(** The entries pushed while iterating over the list [cs] at depth [d],
    whose first element has index [j]. *)
Definition entries (h : heap T) (cs : list T) (j d : nat) (flatNode : nat) (p : list nat)
  : Prop :=
  ∃ k c q, p = (j + k) :: q ∧ cs !! k = Some c ∧ entry h c d flatNode q.

End Shape.

(** [a] and [b] agree on every field but [depth]. *)
Definition sameButDepth {T} (a b : NodeData T) : Prop :=
  subNodes a = subNodes b ∧ nodeId a = nodeId b ∧ node a = node b ∧
  isExpanded a = isExpanded b ∧ isDisabled a = isDisabled b.

(** What the pass may do to the objects of [h]: write the [depth] of an
    object whose reference is in [written], and nothing else. *)
Definition writesDepthOf {T} (written : list nat) (h h' : heap T) : Prop :=
  ∀ k v, h !! k = Some v →
    ∃ v', h' !! k = Some v' ∧ sameButDepth v v' ∧ (k ∉ written → v' = v).

(** One part of the pass, from the store and list [st] to [st']: the list
    grows, and objects change in their depth only, and only those in the
    list. *)
Definition grows {T} (st st' : heap T * list nat) : Prop :=
  st.2 ⊆ st'.2 ∧ writesDepthOf st'.2 st.1 st'.1.

(** The objects [P] are in the store and not in the list. *)
Definition apart {T} (P : nat → Prop) (st : heap T * list nat) : Prop :=
  (∀ k, P k → is_Some (st.1 !! k)) ∧ Forall (λ l, ¬ P l) st.2.

(** Called on a store that holds the objects [P], [getNode] returns none of
    them: it builds its [NodeData] objects itself, or keeps them apart. *)
Definition apartFrom {T} (getNode : GetNode T) (P : nat → Prop) : Prop :=
  ∀ e h0 l h1, (∀ k, P k → is_Some (h0 !! k)) → getNode e h0 = (l, h1) → ¬ P l.

(** A [getNode] that does not change or remove an object that exists. *)
Definition keepsObjects {T} (getNode : GetNode T) : Prop :=
  ∀ e h l h1, getNode e h = (l, h1) → h ⊆ h1.

(** A [getNode] that allocates a new object at the first unused identity. *)
Definition getNode_fresh {T} (describe : T → NodeData T) : GetNode T :=
  λ e h, let l := fresh (dom h) in (l, <[l := describe e]> h).

(** A [getNode] that keeps one object per element (by [key]) and hands the
    same object out again. *)
Definition getNode_memo {T} (describe : T → NodeData T) (key : T → nat) : GetNode T :=
  λ e h, match h !! key e with
         | Some _ => (key e, h)
         | None => (key e, <[key e := describe e]> h)
         end.

(** *** The rendered root *)

(** Modelled from the spec: the type [CommonProps] is declared in [../utils],
    which is not among the sources. Of the "typed configuration objects ...
    style/class overrides" these are the properties the components take from
    it ([className], [style], [title], [id]). *)
Record CommonProps := {
  className : option string;
  style : option string;
  title : option string;
  id : option string
}.

Definition optionalProp (name : string) (v : option string) : gmap string PropValue :=
  match v with Some x => {[ name := PStr x ]} | None => ∅ end.

(** [cx(a, b)]: the class names joined. *)
Definition cx (base : string) (extra : option string) : string :=
  match extra with Some c => base +:+ " " +:+ c | None => base end.

(** The properties of the [ul] the tree renders: the fixed ones, then
    [{...rest}], the common properties left after [className] is taken out. *)
Definition rootProps (props : CommonProps) : gmap string PropValue :=
  spreadOver
    (<["className" := PStr (cx "iui-tree" (className props))]>
      (<["role" := PStr "tree"]>
        (<["onKeyDown" := PHandler "handleKeyDown"]> ∅)))
    (optionalProp "style" (style props) ∪ optionalProp "title" (title props) ∪
     optionalProp "id" (id props)).

End Tree.

(** ** TreeNode *)

Module TreeNode.

Record TreeNodeProps := {
  nodeId : string;
  hasSubNodes : option bool;
  isDisabled : option bool;
  isExpanded : option bool;
  isSelected : option bool;
  common : Tree.CommonProps
}.

(** The properties of the [li] a node renders: the fixed ones, then
    [{...rest}], the common properties left after [style] and [className]
    are taken out. The defaults of the destructuring ([= false]) apply to
    absent properties. *)
Definition itemProps (props : TreeNodeProps) : gmap string PropValue :=
  spreadOver
    (<["role" := PStr "treeitem"]>
      (<["id" := PStr (nodeId props)]>
        (<["aria-expanded" := PBool (default false (isExpanded props))]>
          (<["aria-disabled" := PBool (default false (isDisabled props))]> ∅))))
    (Tree.optionalProp "title" (Tree.title (common props)) ∪
     Tree.optionalProp "id" (Tree.id (common props))).

End TreeNode.

(** ** ComboBox.tsx *)

Module ComboBox.

(** Modelled from the spec: the type [SelectOption<T>] is declared in
    [../Select], which is not among the sources. Of the "typed configuration
    objects: option lists" these are the fields the combo box reads. *)
Record SelectOption (T : Type) := {
  label : string;
  value : T;
  disabled : property bool;
  id : option string
}.
Arguments label {T} _.
Arguments value {T} _.
Arguments disabled {T} _.
Arguments id {T} _.

(** [ExtendedSelectOption<T>]. The type says [id: string; index: number];
    an object built with the [{} as ExtendedSelectOption<T>] fallback of the
    filter effect has neither, so both are optional here. *)
Record ExtendedSelectOption (T : Type) := {
  xlabel : string;
  xvalue : T;
  xdisabled : property bool;
  xid : option string;
  xindex : option nat
}.
Arguments xlabel {T} _.
Arguments xvalue {T} _.
Arguments xdisabled {T} _.
Arguments xid {T} _.
Arguments xindex {T} _.

(** An element of the dropdown list. *)
Inductive MenuChild :=
(** [<MenuExtraContent key={0}><Text isMuted>{text}</Text></MenuExtraContent>] *)
| MenuExtraContent (text : string)
(** an element with [role='option'] for the option [optionId]: a [MenuItem],
    or what [itemRenderer] returns when [custom] *)
| OptionElement (custom : bool) (optionId : option string) (isSelected isFocused : bool).

Record Props (T : Type) := {
  options : list (SelectOption T);
  value_prop : option T;
  (** a callback is supplied *)
  onChange : bool;
  filterFunction :
    option (list (ExtendedSelectOption T) → string → list (SelectOption T));
  inputProps : gmap string PropValue;
  emptyStateMessage : option string;
  (** a renderer is supplied *)
  itemRenderer : bool;
  enableVirtualization : option bool
}.
Arguments options {T} _.
Arguments value_prop {T} _.
Arguments onChange {T} _.
Arguments filterFunction {T} _.
Arguments inputProps {T} _.
Arguments emptyStateMessage {T} _.
Arguments itemRenderer {T} _.
Arguments enableVirtualization {T} _.

Record State (T : Type) := {
  (** the stateful [id] of the component *)
  cid : string;
  extendedOriginalOptions : list (ExtendedSelectOption T);
  (** [optionsMap.current] *)
  optionsMap : gmap string (ExtendedSelectOption T);
  memoizedItems : list MenuChild;
  isOpen : bool;
  filteredOptions : list (ExtendedSelectOption T);
  focusedIndex : option (ExtendedSelectOption T);
  selectedValueId : option string;
  inputValue : string;
  (** [userOnChange.current] holds a callback *)
  userOnChange : bool
}.
Arguments cid {T} _.
Arguments extendedOriginalOptions {T} _.
Arguments optionsMap {T} _.
Arguments memoizedItems {T} _.
Arguments isOpen {T} _.
Arguments filteredOptions {T} _.
Arguments focusedIndex {T} _.
Arguments selectedValueId {T} _.
Arguments inputValue {T} _.
Arguments userOnChange {T} _.

(** A state update, a callback invocation or a call on the event. *)
Inductive Cmd (T : Type) :=
| SetIsOpen (open : bool)
(** [setIsOpen((open) => !open)] *)
| ToggleIsOpen
| SetFocusedIndex (o : option (ExtendedSelectOption T))
(** the updater passed to [setFocusedIndex] by the filter effect, with the
    list and the selected option it closes over *)
| RefocusIn (filtered : list (ExtendedSelectOption T))
            (selectedValue : option (ExtendedSelectOption T))
| SetSelectedValueId (i : option string)
| SetInputValue (v : string)
| SetFilteredOptions (l : list (ExtendedSelectOption T))
(** [userOnChange.current?.(v)] with a callback present *)
| CallOnChange (v : T)
| PreventDefault
| StopPropagation.
Arguments SetIsOpen {T} _.
Arguments ToggleIsOpen {T}.
Arguments SetFocusedIndex {T} _.
Arguments RefocusIn {T} _ _.
Arguments SetSelectedValueId {T} _.
Arguments SetInputValue {T} _.
Arguments SetFilteredOptions {T} _.
Arguments CallOnChange {T} _.
Arguments PreventDefault {T}.
Arguments StopPropagation {T}.

Section WithValue.
Context {T : Type} `{EqDecision T}.
Implicit Types (s : State T) (props : Props T) (o : ExtendedSelectOption T).

#[global] Instance ExtendedSelectOption_eq_dec : EqDecision (ExtendedSelectOption T).
Proof. solve_decision. Defined.

(** [!option.disabled] *)
Definition enabled o : bool := negb (truthy (read (xdisabled o))).

(** *** [mapOptions] *)

Definition extend (cid : string) (index : nat) (option : SelectOption T)
  : ExtendedSelectOption T :=
  {| xlabel := label option; xvalue := value option; xdisabled := disabled option;
     xid := Some (default (cid +:+ "-option" +:+ pretty index) (id option));
     xindex := Some index |}.

(** [newOptionsMap[newOption.id] = newOption], in the order of the options. *)
Definition mapOf (extended : list (ExtendedSelectOption T))
  : gmap string (ExtendedSelectOption T) :=
  foldl (λ m o, <[default "undefined" (xid o) := o]> m) ∅ extended.

Definition mapOptions props s : State T :=
  let newOptions := imap (extend (cid s)) (options props) in
  {| cid := cid s;
     extendedOriginalOptions := newOptions;
     optionsMap := mapOf newOptions;
     memoizedItems := (λ o, OptionElement (itemRenderer props) (xid o) false false) <$> newOptions;
     isOpen := isOpen s; filteredOptions := filteredOptions s;
     focusedIndex := focusedIndex s; selectedValueId := selectedValueId s;
     inputValue := inputValue s; userOnChange := userOnChange s |}.

(** *** State updates *)

(** The updater of the filter effect, applied to the focused option. *)
Definition refocus (filtered : list (ExtendedSelectOption T))
    (selectedValue previouslyFocusedIndex : option (ExtendedSelectOption T))
  : option (ExtendedSelectOption T) :=
  if existsb (λ el, bool_decide (xid el = previouslyFocusedIndex ≫= xid)) filtered
  then previouslyFocusedIndex
  else if existsb (λ el, bool_decide (Some (xvalue el) = xvalue <$> selectedValue)) filtered
  then selectedValue
  else None.

Definition apply s (c : Cmd T) : State T :=
  let upd open filtered focused selected input :=
    {| cid := cid s; extendedOriginalOptions := extendedOriginalOptions s;
       optionsMap := optionsMap s; memoizedItems := memoizedItems s;
       isOpen := open; filteredOptions := filtered; focusedIndex := focused;
       selectedValueId := selected; inputValue := input;
       userOnChange := userOnChange s |} in
  match c with
  | SetIsOpen b =>
      upd b (filteredOptions s) (focusedIndex s) (selectedValueId s) (inputValue s)
  | ToggleIsOpen =>
      upd (negb (isOpen s)) (filteredOptions s) (focusedIndex s) (selectedValueId s)
          (inputValue s)
  | SetFocusedIndex f =>
      upd (isOpen s) (filteredOptions s) f (selectedValueId s) (inputValue s)
  | RefocusIn filtered selectedValue =>
      upd (isOpen s) (filteredOptions s) (refocus filtered selectedValue (focusedIndex s))
          (selectedValueId s) (inputValue s)
  | SetSelectedValueId i =>
      upd (isOpen s) (filteredOptions s) (focusedIndex s) i (inputValue s)
  | SetInputValue v =>
      upd (isOpen s) (filteredOptions s) (focusedIndex s) (selectedValueId s) v
  | SetFilteredOptions l =>
      upd (isOpen s) l (focusedIndex s) (selectedValueId s) (inputValue s)
  | CallOnChange _ | PreventDefault | StopPropagation => s
  end.

Definition applyAll s (cs : list (Cmd T)) : State T := foldl apply s cs.

(** *** Effects *)

(** [selectedValueId ? optionsMap.current[selectedValueId] : undefined] *)
Definition selectedOption s : option (ExtendedSelectOption T) :=
  match selectedValueId s with
  | Some i => if nonEmpty i then optionsMap s !! i else None
  | None => None
  end.

(** "update inputValue and focusedIndex every time selected value changes" *)
Definition selectedEffect s : list (Cmd T) :=
  match selectedOption s with
  | Some selected => [SetInputValue (xlabel selected); SetFocusedIndex (Some selected)]
  | None => []
  end.

(** [{...el, ...extendedOption}] for an element of the custom filter's
    result: every own key of [extendedOption] wins, [disabled] also when it
    holds [undefined]. *)
Definition merge (extended : list (ExtendedSelectOption T)) (el : SelectOption T)
  : ExtendedSelectOption T :=
  match find (λ e _, bool_decide (xvalue e = value el)) extended with
  | Some e =>
      {| xlabel := xlabel e; xvalue := xvalue e;
         xdisabled := match xdisabled e with Absent => disabled el | own => own end;
         xid := xid e; xindex := xindex e |}
  | None =>
      {| xlabel := label el; xvalue := value el; xdisabled := disabled el;
         xid := id el; xindex := None |}
  end.

(** The default filter: the label, lowercased, includes the input, trimmed
    and lowercased. *)
Definition matches (inputValue : string) o : bool :=
  includes (toLowerCase (xlabel o)) (toLowerCase (trim inputValue)).

(** "Filter options and update focus when input value changes" *)
Definition filterEffect props s : list (Cmd T) :=
  if negb (isOpen s) then []
  else
    let selectedValue := selectedOption s in
    if negb (nonEmpty (inputValue s))
       || bool_decide (xlabel <$> selectedValue = Some (inputValue s))
    then [SetFilteredOptions (extendedOriginalOptions s)]
    else
      let _filteredOptions :=
        match filterFunction props with
        | Some f =>
            merge (extendedOriginalOptions s) <$> f (extendedOriginalOptions s) (inputValue s)
        | None => List.filter (matches (inputValue s)) (extendedOriginalOptions s)
        end in
      [SetFilteredOptions _filteredOptions; RefocusIn _filteredOptions selectedValue].

(** [setFilteredOptions(extendedOriginalOptions)] when the options change. *)
Definition resetFilterEffect s : list (Cmd T) :=
  [SetFilteredOptions (extendedOriginalOptions s)].

(** "Maintain internal selected value state synced with value prop" *)
Definition syncValueEffect props s : list (Cmd T) :=
  [SetSelectedValueId
     (find (λ option _, bool_decide (Some (xvalue option) = value_prop props))
        (extendedOriginalOptions s) ≫= xid)].

(** [onHide] of the popover. *)
Definition onHide s : list (Cmd T) :=
  let selectedIndex := selectedOption s in
  SetFocusedIndex selectedIndex ::
  match selectedIndex with
  | Some selected => [SetInputValue (xlabel selected)]
  | None => []
  end.

(** *** Event handlers *)

(** [focusedIndex?.index ?? -1] *)
Definition storedIndex s : Z :=
  match focusedIndex s ≫= xindex with Some i => Z.of_nat i | None => (-1)%Z end.

(** The loop of the [ArrowUp] case, from [i = n - 1] down to [0]. *)
Fixpoint scanUp (filtered : list (ExtendedSelectOption T)) (n : nat)
  : option (ExtendedSelectOption T) :=
  match n with
  | 0 => None
  | S i =>
      match filtered !! i with
      | Some o => if enabled o then Some o else scanUp filtered i
      | None => scanUp filtered i
      end
  end.

Definition callOnChange s (v : T) : list (Cmd T) :=
  if userOnChange s then [CallOnChange v] else [].

Definition onKeyDown s (key : string) : list (Cmd T) :=
  if decide (key = "ArrowDown") then
    (if isOpen s then
       let filteredFocusedIndex : Z := storedIndex s in
       match find (λ option index,
                     bool_decide (Z.of_nat index > filteredFocusedIndex)%Z && enabled option)
                  (filteredOptions s) with
       | Some nextFilteredOption => [SetFocusedIndex (Some nextFilteredOption)]
       | None => []
       end
     else [SetIsOpen true])
    ++ [PreventDefault; StopPropagation]
  else if decide (key = "ArrowUp") then
    match isOpen s, focusedIndex s with
    | true, Some focused =>
        match xindex focused with
        | Some 0 => []
        | Some filteredFocusedIndex =>
            match scanUp (filteredOptions s) filteredFocusedIndex with
            | Some nextFilteredOption => [SetFocusedIndex (Some nextFilteredOption)]
            | None => []
            end ++ [PreventDefault; StopPropagation]
        | None => [PreventDefault; StopPropagation]
        end
    | _, _ => [PreventDefault; StopPropagation]
    end
  else if decide (key = "Enter") then
    match isOpen s, focusedIndex s with
    | true, Some focused =>
        SetSelectedValueId (xid focused) :: callOnChange s (xvalue focused)
    | _, _ => []
    end ++ [ToggleIsOpen; PreventDefault; StopPropagation]
  else if decide (key = "Escape") then [SetIsOpen false; PreventDefault; StopPropagation]
  else if decide (key = "Tab") then [SetIsOpen false]
  else if isOpen s then [] else [SetIsOpen true].

(** [onClick] of an option element. *)
Definition onClick s o : list (Cmd T) :=
  SetSelectedValueId (xid o) :: callOnChange s (xvalue o) ++ [SetIsOpen false].

(** [onFocus] of the input. *)
Definition onFocus : list (Cmd T) := [SetIsOpen true].

(** [onInput]: [setInputValue(event.target.value)] *)
Definition onInput (text : string) : list (Cmd T) := [SetInputValue text].

(** *** One render and its effects *)

(** Modelled from the spec: React and the [Popover] of [../utils] are not
    among the sources. "State changes occur synchronously in response to user
    input events ... and trigger a re-render": after an event the component
    renders with the updated state and the effects whose dependencies differ
    from the previous render run, in the order of their declaration; each
    reads the state of that render, and the updates they request give the
    state of the next render. The popover calls [onHide] when [visible] turns
    false. The properties stay as they are meanwhile. *)
Definition effectsPass props (prev s : State T) : State T :=
  let optionsChanged :=
    negb (bool_decide (extendedOriginalOptions prev = extendedOriginalOptions s)) in
  let selectedChanged := negb (bool_decide (selectedValueId prev = selectedValueId s)) in
  let openChanged := negb (bool_decide (isOpen prev = isOpen s)) in
  let inputChanged := negb (bool_decide (inputValue prev = inputValue s)) in
  applyAll s
    ((if optionsChanged then resetFilterEffect s else []) ++
     (if optionsChanged then syncValueEffect props s else []) ++
     (if selectedChanged then selectedEffect s else []) ++
     (if inputChanged || selectedChanged || openChanged || optionsChanged
      then filterEffect props s else []) ++
     (if isOpen prev && negb (isOpen s) then onHide s else [])).

(** [passes] renders after the state [s] that followed [prev]. *)
Fixpoint settle (passes : nat) props (prev s : State T) : State T :=
  match passes with
  | 0 => s
  | S n => settle n props s (effectsPass props prev s)
  end.

(** The state once the updates of an event handler are in and [passes]
    renders have run their effects. *)
Definition after (passes : nat) props s (cs : list (Cmd T)) : State T :=
  settle passes props s (applyAll s cs).




(** *** Rendering *)

Definition getSingleMenuItem props s (index : nat) : completion (option MenuChild) :=
  match filteredOptions s !! index with
  | None => Normal None
  | Some filteredOption =>
      let isSelected := bool_decide (selectedValueId s = xid filteredOption) in
      let isFocused := bool_decide (focusedIndex s ≫= xid = xid filteredOption) in
      let originalIndex :=
        optionsMap s !! default "undefined" (xid filteredOption) ≫= xindex in
      let memoized := originalIndex ≫= (memoizedItems s !!.) in
      if isSelected || isFocused then
        if itemRenderer props then
          Normal (Some (OptionElement true (xid filteredOption) isSelected isFocused))
        else
          match memoized with
          | Some _ =>
              Normal (Some (OptionElement false (xid filteredOption) isSelected isFocused))
          | None => Throw ReactError
          end
      else Normal memoized
  end.


(** [emptyStateMessage = 'No options found'] *)
Definition emptyMessage props : string :=
  default "No options found" (emptyStateMessage props).

Definition menuItems props s : completion (list (option MenuChild)) :=
  if decide (length (filteredOptions s) = 0) then
    Normal [Some (MenuExtraContent (emptyMessage props))]
  else mapM (getSingleMenuItem props s) (seq 0 (length (filteredOptions s))).

Definition virtualizedItemRenderer props s (index : nat) : completion MenuChild :=
  match getSingleMenuItem props s index with
  | Normal (Some item) => Normal item
  | Normal None => Normal (MenuExtraContent (emptyMessage props))
  | Throw e => Throw e
  | OutOfFuel => OutOfFuel
  end.

(** The content of the popover. *)
Inductive DropdownContent :=
(** [<Menu id role='listbox'>{menuItems}</Menu>] *)
| PlainMenu (listId : string) (children : completion (list (option MenuChild)))
(** [<VirtualComboboxMenu id itemsLength itemRenderer scrollToIndex />], whose
    [Menu] has the id [listId] *)
| VirtualMenu (listId : string) (itemsLength : nat) (scrollToIndex : option nat).

Definition dropdownContent props s : DropdownContent :=
  if default false (enableVirtualization props) then
    VirtualMenu ((cid s +:+ "-list") +:+ "-list") (length (filteredOptions s))
                (focusedIndex s ≫= xindex)
  else PlainMenu (cid s +:+ "-list") (menuItems props s).

(** [visibleChildren] of [VirtualComboboxMenu].
    Modelled from the spec: [useVirtualization] of [../utils] is not among
    the sources. It is called with [itemsLength], [itemRenderer] and
    [scrollToIndex], for a list of [itemsLength] items of which it shows a
    window: [itemRenderer(index)] for the indices of [window], the window it
    picks, that are below [itemsLength]. *)
Definition visibleChildren (window : list nat) (itemsLength : nat)
    (itemRenderer : nat → completion MenuChild) : completion (list MenuChild) :=
  mapM itemRenderer (List.filter (λ index, bool_decide (index < itemsLength)) window).

(** The entries of the menu of the dropdown. *)
Definition menuEntries props s (window : list nat) : completion (list (option MenuChild)) :=
  match dropdownContent props s with
  | PlainMenu _ children => children
  | VirtualMenu _ itemsLength _ =>
      match visibleChildren window itemsLength (virtualizedItemRenderer props s) with
      | Normal children => Normal (Some <$> children)
      | Throw e => Throw e
      | OutOfFuel => OutOfFuel
      end
  end.

(** The properties the [Input] is rendered with: the fixed ones, then
    [{...inputProps}], then [onChange]. *)
Definition inputElementProps props s : gmap string PropValue :=
  <["onChange" := PHandler "onInput"]>
    (spreadOver
       (<["onKeyDown" := PHandler "onKeyDown"]>
         (<["onFocus" := PHandler "onFocus"]>
           (<["value" := PStr (inputValue s)]>
             (<["aria-activedescendant" :=
                  match isOpen s, focusedIndex s with
                  | true, Some focused =>
                      match xid focused with Some i => PStr i | None => PUndefined end
                  | _, _ => PUndefined
                  end]>
               (<["role" := PStr "combobox"]>
                 (<["aria-controls" :=
                      if isOpen s then PStr (cid s +:+ "-list") else PUndefined]>
                   (<["aria-autocomplete" := PStr "list"]>
                     (<["spellCheck" := PBool false]>
                       (<["autoCapitalize" := PStr "none"]>
                         (<["autoCorrect" := PStr "off"]> ∅))))))))))
       (inputProps props)).


(** The dependencies of the effects, the input text apart. *)
Definition sameDeps (prev s : State T) : Prop :=
  extendedOriginalOptions prev = extendedOriginalOptions s ∧
  selectedValueId prev = selectedValueId s ∧
  isOpen prev = isOpen s.

(** *** Mounting *)

(** The initializer of [focusedIndex],
    [() => (selectedValueId ? optionsMap.current[selectedValueId] : undefined)],
    which [useState] calls during the first render. It reads the [const]
    [selectedValueId]; reading a [const] whose declaration has not run yet
    throws. *)
Definition focusedIndexInitializer (selectedValueId : binding (option string))
    (optionsMap : gmap string (ExtendedSelectOption T))
  : completion (option (ExtendedSelectOption T)) :=
  match selectedValueId with
  | Uninitialized => Throw ReferenceError
  | Initialized selected =>
      Normal (match selected with
              | Some i => if nonEmpty i then optionsMap !! i else None
              | None => None
              end)
  end.

(** The first render: the [useState] of [focusedIndex] comes before the
    [useState] of [selectedValueId], and [optionsMap.current] is still empty. *)
Definition firstFocusedIndex : completion (option (ExtendedSelectOption T)) :=
  focusedIndexInitializer Uninitialized ∅.

(** The state a first render that completes starts from (as when [const] is
    compiled to [var], which reads as [undefined] before its declaration):
    nothing is selected, so nothing is focused. *)
Definition initialState (cid : string) props : State T :=
  {| cid := cid; extendedOriginalOptions := []; optionsMap := ∅; memoizedItems := [];
     isOpen := false; filteredOptions := []; focusedIndex := None;
     selectedValueId := None; inputValue := ""; userOnChange := onChange props |}.

(** The state after the first render ran [mapOptions] and [passes] more
    renders ran their effects. *)
Definition mount (passes : nat) (cid : string) props : State T :=
  settle passes props (initialState cid props) (mapOptions props (initialState cid props)).

End WithValue.

End ComboBox.

(** ** Inputs the properties are checked on *)

Module Samples.
Import Tree.

(** The rendered nodes of the arrow-key test of [Tree.test.tsx]: [Node-2]
    and [Node-3-1-1] are disabled, [Node-3] and [Node-3-1] are expanded,
    [Node-3-1-2] is collapsed. *)
Definition node1 : NodeElement :=
  {| elem := 1; iui_disabled := false; expander := None;
     parentId := "Node-1"; parentOwns := None |}.
Definition node2 : NodeElement :=
  {| elem := 2; iui_disabled := true; expander := None;
     parentId := "Node-2"; parentOwns := None |}.
Definition node3 : NodeElement :=
  {| elem := 3; iui_disabled := false; expander := Some true;
     parentId := "Node-3"; parentOwns := Some [""] |}.
Definition node31 : NodeElement :=
  {| elem := 4; iui_disabled := false; expander := Some true;
     parentId := "Node-3-1"; parentOwns := Some [""] |}.
Definition node311 : NodeElement :=
  {| elem := 5; iui_disabled := true; expander := None;
     parentId := "Node-3-1-1"; parentOwns := None |}.
Definition node312 : NodeElement :=
  {| elem := 6; iui_disabled := false; expander := Some false;
     parentId := "Node-3-1-2"; parentOwns := Some [""] |}.

Definition testNodes : list NodeElement :=
  [node1; node2; node3; node31; node311; node312].

(** The test data of [Tree.test.tsx] and its [getNode]. *)
#[warnings="-register-all"]
Inductive TestData := Item (id label : string) (subItems : list TestData).

Definition itemId (t : TestData) : string := match t with Item i _ _ => i end.
Definition subItems (t : TestData) : list TestData := match t with Item _ _ s => s end.

Fixpoint height (t : TestData) : nat :=
  match t with
  | Item _ _ subs => S (foldr (λ s acc, height s `max` acc) 0 subs)
  end.

Definition testDescribe (expandedIds disabledIds : list string) (n : TestData)
  : NodeData TestData :=
  {| subNodes := Some (subItems n);
     nodeId := itemId n;
     node := n;
     isExpanded := Some (bool_decide (itemId n ∈ expandedIds));
     isDisabled := Some (bool_decide (itemId n ∈ disabledIds));
     depth := None |}.

(** "should not render node if any parent above is not expanded" *)
Definition nestedData : list TestData :=
  [Item "Node-1" "Node-1"
     [Item "Node-1-1" "Node-1-1" [Item "Node-1-1-1" "Node-1-1-1" []]]].

(** "should render in its most basic state" *)
Definition basicData : list TestData :=
  [Item "Node-1" "Facility 1"
     [Item "Node-1-1" "Unit 1" []; Item "Node-1-2" "Unit 2" []];
   Item "Node-2" "Facility 2" []].

(** Two elements [0] and [1], where [1] is both a root and the child of the
    expanded root [0], and a [getNode] that keeps one object per element. *)
Definition sharedDescribe (e : nat) : NodeData nat :=
  match e with
  | 0 => {| subNodes := Some [1]; nodeId := "a"; node := 0;
            isExpanded := Some true; isDisabled := None; depth := None |}
  | _ => {| subNodes := None; nodeId := "b"; node := e;
            isExpanded := None; isDisabled := None; depth := None |}
  end.

Definition sharedData : list nat := [0; 1].

Definition sharingGetNode : GetNode nat := getNode_memo sharedDescribe (λ e, e).

Definition sharedHeap : heap nat :=
  <[1 := setDepth 0 (sharedDescribe 1)]> (<[0 := setDepth 0 (sharedDescribe 0)]> ∅).

(** The caller's elements [0] and [1] as objects of their own, and a
    [getNode] that keeps its [NodeData] objects apart from them. *)
Definition callerHeap : heap nat :=
  <[1 := sharedDescribe 1]> (<[0 := sharedDescribe 0]> ∅).

(** The options of the example in the documentation of [ComboBox]. *)
Definition item (l : string) (v : nat) (i : option string) : ComboBox.SelectOption nat :=
  {| ComboBox.label := l; ComboBox.value := v; ComboBox.disabled := Absent;
     ComboBox.id := i |}.

Definition comboProps (opts : list (ComboBox.SelectOption nat)) : ComboBox.Props nat :=
  {| ComboBox.options := opts; ComboBox.value_prop := None; ComboBox.onChange := true;
     ComboBox.filterFunction := None; ComboBox.inputProps := ∅;
     ComboBox.emptyStateMessage := None; ComboBox.itemRenderer := false;
     ComboBox.enableVirtualization := None |}.

Definition demoProps : ComboBox.Props nat :=
  comboProps [item "Item 1" 1 None; item "Item 2" 2 None; item "Item 3" 3 None].

(** Mounted, then focused: the dropdown is open on the whole list. *)
Definition opened (props : ComboBox.Props nat) : ComboBox.State nat :=
  let mounted := ComboBox.mount 3 "cb" props in
  ComboBox.after 2 props mounted ComboBox.onFocus.

Definition demoItem (n : nat) : ComboBox.ExtendedSelectOption nat :=
  ComboBox.extend "cb" n (item ("Item " +:+ pretty (S n)) (S n) None).



(** [inputProps={{ role: 'textbox' }}] *)
Definition textboxProps : ComboBox.Props nat :=
  {| ComboBox.options := []; ComboBox.value_prop := None; ComboBox.onChange := false;
     ComboBox.filterFunction := None;
     ComboBox.inputProps := {[ "role" := PStr "textbox" ]};
     ComboBox.emptyStateMessage := None; ComboBox.itemRenderer := false;
     ComboBox.enableVirtualization := None |}.

Definition plainNode : TreeNode.TreeNodeProps :=
  {| TreeNode.nodeId := "Node-1"; TreeNode.hasSubNodes := None;
     TreeNode.isDisabled := None; TreeNode.isExpanded := None;
     TreeNode.isSelected := None;
     TreeNode.common := {| className := None; style := None; title := None; id := None |} |}.

End Samples.

(** ** Words about the tree's DOM used by the properties of the keys *)

Module TreeDom.
Import Tree.

(** The test of the [ArrowLeft] loop on a node [n]: the [aria-owns] of the
    last child of its parent lists the id of the parent of [current]. *)
Definition Owns (current n : NodeElement) : Prop :=
  ∃ owns, parentOwns n = Some owns ∧ parentId current ∈ owns.

(** The node [f] is an enabled node of the tree and has the focus; the
    elements of the tree are distinct. *)
Definition Focused (dom : Dom) (f : NodeElement) : Prop :=
  NoDup (elem <$> treeNodes dom) ∧ f ∈ treeNodes dom ∧ Enabled f ∧
  activeElement dom = elem f.

(** The keys with a case of their own in the [switch]. *)
Definition handledKeys : list string :=
  ["ArrowDown"; "ArrowUp"; "ArrowLeft"; "ArrowRight"; "Enter"; " "; "Spacebar"].

(** The data shows a node that is shown below itself: a cycle of expanded
    nodes that the pass reaches. *)
Definition ShowsCycle {T} (describe : T → NodeData T) (data : list T) : Prop :=
  ∃ p x q, ShownIn describe data p x ∧ q ≠ [] ∧ Shown describe x q x.

(** From [e] the pass reaches such a node. *)
Definition ReachesCycle {T} (describe : T → NodeData T) (e : T) : Prop :=
  ∃ p x q, Shown describe e p x ∧ q ≠ [] ∧ Shown describe x q x.

(** An element that lists itself among its sub-nodes. *)
Definition loopDescribe (e : nat) : NodeData nat :=
  {| subNodes := Some [e]; nodeId := "loop"; node := e;
     isExpanded := Some true; isDisabled := None; depth := None |}.

End TreeDom.

(** ** Words about the combo box used by its further properties *)

Module ComboView.
Import ComboBox.

Section WithValue.
Context {T : Type} `{EqDecision T}.
Implicit Types (s : State T) (props : Props T) (o : ExtendedSelectOption T).

(** The map holds the option [o] under its own id, which is not empty. *)
Definition Resolvable s o : Prop :=
  ∃ i, xid o = Some i ∧ i ≠ "" ∧ optionsMap s !! i = Some o.

(** The state holds what [mapOptions] makes of the options. *)
Definition Mapped props s : Prop :=
  extendedOriginalOptions s = imap (extend (cid s)) (options props) ∧
  optionsMap s = mapOf (extendedOriginalOptions s) ∧
  memoizedItems s =
    (λ o, OptionElement (itemRenderer props) (xid o) false false) <$>
    extendedOriginalOptions s.

(** The first option with the value of the [value] property. *)
Definition valueOption props s : option (ExtendedSelectOption T) :=
  find (λ option _, bool_decide (Some (xvalue option) = value_prop props))
       (extendedOriginalOptions s).

End WithValue.

End ComboView.

(** ** The tree as [TreeNode] renders it *)

Module TreeView.
Import Tree TreeNode.

(** A call of one of the callbacks of a node, or on the click event. *)
Inductive Call :=
| NodeSelected (nodeId : string) (isSelected : bool)
| NodeExpanded (nodeId : string) (isExpanded : bool)
| StopPropagation.

(** [onNodeClick], the [onClick] of the [div.iui-tree-node]; [selectable]:
    an [onNodeSelected] is supplied. *)
Definition onNodeClick (props : TreeNodeProps) (selectable : bool) : list Call :=
  if default false (isDisabled props) then []
  else if selectable
       then [NodeSelected (nodeId props) (negb (default false (isSelected props)))]
       else [].

Definition onDoubleClick (props : TreeNodeProps) : list Call :=
  if default false (hasSubNodes props)
  then [NodeExpanded (nodeId props) (negb (default false (isExpanded props)))]
  else [].

(** The [onClick] of the expander button. *)
Definition onExpanderClick (props : TreeNodeProps) : list Call :=
  [NodeExpanded (nodeId props) (negb (default false (isExpanded props))); StopPropagation].

(** [context?.subNodeIds ?? []]: the context value the tree provides holds
    [nodeDepth] only, and outside a tree the context is [undefined]. *)
Definition subNodeIds : list string := [].

(** [xs.join(sep)] *)
Definition join (sep : string) (xs : list string) : string :=
  match xs with
  | [] => ""
  | x :: rest => foldl (λ acc y, acc +:+ sep +:+ y) x rest
  end.

(** [s.split(sep)] for a separator that is not empty: [cur] is the piece
    being read, [skip] the characters of a separator still to pass. *)
Fixpoint splitFrom (sep : string) (skip : nat) (cur : string) (s : string) : list string :=
  match s with
  | EmptyString => [cur]
  | String c rest =>
      match skip with
      | S k => splitFrom sep k cur rest
      | 0 =>
          if startsWith s sep
          then cur :: splitFrom sep (String.length sep - 1) "" rest
          else splitFrom sep 0 (cur +:+ String c "") rest
      end
  end.

Definition split (sep s : string) : list string := splitFrom sep 0 "" s.

(** ASCII whitespace, which separates the tokens of a [class] attribute. *)
Definition isClassSpace (c : ascii) : bool :=
  bool_decide (c ∈ ["009"; "010"; "012"; "013"; " "]%char).

Fixpoint tokensFrom (cur : string) (s : string) : list string :=
  match s with
  | EmptyString => if nonEmpty cur then [cur] else []
  | String c rest =>
      if isClassSpace c
      then (if nonEmpty cur then [cur] else []) ++ tokensFrom "" rest
      else tokensFrom (cur +:+ String c "") rest
  end.

(** [classList] of an element with the class attribute [className]. *)
Definition classList (className : string) : list string := tokensFrom "" className.

(** The class attribute of the [div] of a node:
    [cx('iui-tree-node', {'iui-active': isSelected, 'iui-disabled': isDisabled}, className)] *)
Definition nodeClassName (props : TreeNodeProps) : string :=
  "iui-tree-node"
  +:+ (if default false (isSelected props) then " iui-active" else "")
  +:+ (if default false (isDisabled props) then " iui-disabled" else "")
  +:+ match className (common props) with
      | Some c => if nonEmpty c then " " +:+ c else ""
      | None => ""
      end.

(** The [id] of the [li]: [id={nodeId}], then [{...rest}]. *)
Definition liId (props : TreeNodeProps) : string :=
  default (nodeId props) (Tree.id (common props)).

(** The [div.iui-tree-node] of a node as [handleKeyDown] reads it. The
    content the caller supplies (checkbox, icon, label, children) is taken to
    hold no element of the class [iui-tree-node-content-expander-icon]. *)
Definition nodeElement (e : nat) (props : TreeNodeProps) : NodeElement :=
  {| elem := e;
     iui_disabled := bool_decide ("iui-disabled" ∈ classList (nodeClassName props));
     expander :=
       if default false (hasSubNodes props)
       then Some (default false (isExpanded props)) else None;
     parentId := liId props;
     parentOwns :=
       if default false (hasSubNodes props)
       then Some (split ", " (join ", " subNodeIds)) else None |}.

(** The nodes of a tree whose [nodeRenderer] renders a [TreeNode] for every
    entry of the flattened list; an element is known by its position. *)
Definition rendered (nodes : list TreeNodeProps) : list NodeElement :=
  imap nodeElement nodes.

(** Modelled from the spec: the DOM and [IconButton] of [../Buttons] are not
    among the sources. "User interactions enter through ... event handlers
    attached to the components' rendered elements": [click()] on the [div] of
    a node runs its [onClick]; [click()] on the parent of the expander icon
    runs the [onClick] of the button around the icon. *)
Definition calls (nodes : list TreeNodeProps) (selectable : bool) (effect : Effect)
  : list Call :=
  match effect with
  | Click e =>
      match nodes !! e with
      | Some props => onNodeClick props selectable
      | None => []
      end
  | ClickExpander e =>
      match nodes !! e with
      | Some props => onExpanderClick props
      | None => []
      end
  | Focus _ | PreventDefault => []
  end.

(** A key pressed in a tree of such nodes while the element [a] is the active
    one: what reaches the callbacks. *)
Definition keyCalls (nodes : list TreeNodeProps) (selectable : bool) (a : nat)
    (key : string) : completion (list Call) :=
  match handleKeyDown {| treeNodes := rendered nodes; activeElement := a |} key with
  | Normal effects => Normal (concat (calls nodes selectable <$> effects))
  | Throw e => Throw e
  | OutOfFuel => OutOfFuel
  end.

(** A value of a style object. *)
Inductive StyleValue :=
| StyleNumber (n : nat)
| StyleText (s : string).

(** [context?.nodeDepth ?? 0], for the context value
    [{ nodeDepth: flatNode.depth }] the tree provides around the entry
    [flatNode] of the flattened list. *)
Definition nodeDepth {T} (h : heap T) (flatNode : nat) : nat :=
  default 0 (h !! flatNode ≫= depth).

(** [styleDepth], the style of the [div] of a node. [supports] is the answer
    of [CSS.supports] to [--level: <nodeDepth>], [false] also without a
    window; the properties of [style] are spread last. *)
Definition styleDepth (supports : bool) (nodeDepth : nat) (style : gmap string StyleValue)
  : gmap string StyleValue :=
  style ∪
  (if supports then {[ "--level" := StyleNumber nodeDepth ]}
   else {[ "marginLeft" :=
             StyleNumber (if decide (nodeDepth = 0) then 0 else nodeDepth * 28) ]}).

End TreeView.

(** ** Further inputs the properties are checked on *)

Module Inputs.
Import Tree.

(** [value={2}] on the documented options. *)
Definition valuedProps : ComboBox.Props nat :=
  {| ComboBox.options := ComboBox.options Samples.demoProps;
     ComboBox.value_prop := Some 2; ComboBox.onChange := true;
     ComboBox.filterFunction := None; ComboBox.inputProps := ∅;
     ComboBox.emptyStateMessage := None; ComboBox.itemRenderer := false;
     ComboBox.enableVirtualization := None |}.

(** A [filterFunction] that answers with the second option under another
    label and with an option that is not among the options. *)
Definition customFilter (_ : list (ComboBox.ExtendedSelectOption nat)) (_ : string)
  : list (ComboBox.SelectOption nat) :=
  [Samples.item "Two" 2 None; Samples.item "Other" 9 None].

Definition customProps : ComboBox.Props nat :=
  {| ComboBox.options := ComboBox.options Samples.demoProps;
     ComboBox.value_prop := None; ComboBox.onChange := true;
     ComboBox.filterFunction := Some customFilter; ComboBox.inputProps := ∅;
     ComboBox.emptyStateMessage := None; ComboBox.itemRenderer := false;
     ComboBox.enableVirtualization := None |}.


(** [enableVirtualization] on the documented options. *)
Definition virtualProps : ComboBox.Props nat :=
  {| ComboBox.options := ComboBox.options Samples.demoProps;
     ComboBox.value_prop := None; ComboBox.onChange := true;
     ComboBox.filterFunction := None; ComboBox.inputProps := ∅;
     ComboBox.emptyStateMessage := None; ComboBox.itemRenderer := false;
     ComboBox.enableVirtualization := Some true |}.

(** The second option clicked, the input focused again, and text typed. *)
Definition picked : ComboBox.State nat :=
  ComboBox.after 2 Samples.demoProps (Samples.opened Samples.demoProps)
    (ComboBox.onClick (Samples.opened Samples.demoProps) (Samples.demoItem 1)).

Definition reopened : ComboBox.State nat :=
  ComboBox.after 2 Samples.demoProps picked ComboBox.onFocus.

Definition typed (text : string) : ComboBox.State nat :=
  ComboBox.after 2 Samples.demoProps reopened (ComboBox.onInput text).

(** Text typed into the opened combo box with the custom filter. *)
Definition customTyped : ComboBox.State nat :=
  ComboBox.after 2 customProps (Samples.opened customProps) (ComboBox.onInput "x").

(** The nodes of the arrow-key test of [Tree.test.tsx] as properties of
    [TreeNode]. *)
Definition treeNode (nodeId : string) (sub disabled expanded : bool)
  : TreeNode.TreeNodeProps :=
  {| TreeNode.nodeId := nodeId; TreeNode.hasSubNodes := Some sub;
     TreeNode.isDisabled := Some disabled; TreeNode.isExpanded := Some expanded;
     TreeNode.isSelected := None;
     TreeNode.common := {| className := None; style := None; title := None; id := None |} |}.

Definition testTreeNodes : list TreeNode.TreeNodeProps :=
  [treeNode "Node-1" false false false;
   treeNode "Node-2" false true false;
   treeNode "Node-3" true false true;
   treeNode "Node-3-1" true false true;
   treeNode "Node-3-1-1" false true false;
   treeNode "Node-3-1-2" true false false].

(** Four options of which the text [2] leaves the last two. *)
Definition pairedProps : ComboBox.Props nat :=
  Samples.comboProps
    [Samples.item "A1" 1 None; Samples.item "B1" 2 None;
     Samples.item "C2" 3 None; Samples.item "D2" 4 None].

Definition pairedItem (l : string) (n : nat) : ComboBox.ExtendedSelectOption nat :=
  ComboBox.extend "cb" n (Samples.item l (S n) None).

(** The input focused, [2] typed, and ArrowDown pressed: the list is
    [C2; D2], and [C2] is focused. *)
Definition pairedTyped : ComboBox.State nat :=
  ComboBox.after 2 pairedProps (Samples.opened pairedProps) (ComboBox.onInput "2").

Definition pairedFocused : ComboBox.State nat :=
  ComboBox.after 2 pairedProps pairedTyped (ComboBox.onKeyDown pairedTyped "ArrowDown").




(** No options, without and with [enableVirtualization]. *)
Definition emptyProps : ComboBox.Props nat := Samples.comboProps [].

Definition emptyVirtualProps : ComboBox.Props nat :=
  {| ComboBox.options := []; ComboBox.value_prop := None; ComboBox.onChange := true;
     ComboBox.filterFunction := None; ComboBox.inputProps := ∅;
     ComboBox.emptyStateMessage := None; ComboBox.itemRenderer := false;
     ComboBox.enableVirtualization := Some true |}.

End Inputs.

(** * Properties *)

Import Tree.

(** ** Keyboard navigation in the tree *)

Section ArrayFacts.
Context {A : Type}.
Implicit Types (p : A → bool) (xs ys : list A).

Lemma findIndex_absent p xs :
  Forall (λ x, p x = false) xs → findIndex p xs = (-1)%Z.
Proof.
  induction 1 as [|x xs Hx _ IH]; simpl; [done|].
  rewrite Hx, IH. by rewrite decide_True.
Qed.

Lemma findIndex_first p xs y ys :
  Forall (λ x, p x = false) xs → p y = true →
  findIndex p (xs ++ y :: ys) = Z.of_nat (length xs).
Proof.
  intros Hxs Hy. induction Hxs as [|x xs Hx _ IH]; simpl.
  - by rewrite Hy.
  - rewrite Hx, IH. rewrite decide_False by lia. lia.
Qed.

Lemma at_index_middle xs y ys :
  at_index (xs ++ y :: ys) (Z.of_nat (length xs)) = Some y.
Proof.
  unfold at_index. rewrite decide_True by lia. rewrite Nat2Z.id.
  by rewrite list_lookup_middle.
Qed.

Lemma at_index_after xs y z ys :
  at_index (xs ++ y :: z :: ys) (Z.of_nat (length xs) + 1) = Some z.
Proof.
  unfold at_index. rewrite decide_True by lia.
  replace (Z.to_nat (Z.of_nat (length xs) + 1)) with (length (xs ++ [y])).
  - replace (xs ++ y :: z :: ys) with ((xs ++ [y]) ++ z :: ys) by by rewrite <- app_assoc.
    by rewrite list_lookup_middle.
  - rewrite length_app. simpl. lia.
Qed.

Lemma at_index_before xs z y ys :
  at_index (xs ++ z :: y :: ys) (Z.of_nat (length (xs ++ [z])) - 1) = Some z.
Proof.
  rewrite length_app. simpl.
  replace (Z.of_nat (length xs + 1) - 1)%Z with (Z.of_nat (length xs)) by lia.
  apply at_index_middle.
Qed.

End ArrayFacts.

Section TreeKeys.
Implicit Types (n f g : NodeElement) (dom : Dom).

Lemma filter_off (ns : list NodeElement) :
  Forall Disabled ns → filter (λ n, iui_disabled n = false) ns = [].
Proof.
  induction 1 as [|n ns Hn _ IH]; [done|].
  rewrite filter_cons_False; [done|]. unfold Disabled in Hn. congruence.
Qed.

(** The enabled nodes around an enabled node [f]. *)
Lemma enabledNodes_split before f after a :
  Enabled f →
  enabledNodes {| treeNodes := before ++ f :: after; activeElement := a |} =
  filter (λ n, iui_disabled n = false) before ++ f ::
  filter (λ n, iui_disabled n = false) after.
Proof.
  intros Hf. unfold enabledNodes; simpl.
  rewrite filter_app, filter_cons_True by done. done.
Qed.

(** Among distinct elements, [findIndex] finds the focused one where it is. *)
Lemma currentIndex_split before f after :
  NoDup (elem <$> (before ++ f :: after)) → Enabled f →
  findIndex (λ n, bool_decide (elem n = elem f))
    (filter (λ n, iui_disabled n = false) before ++ f ::
     filter (λ n, iui_disabled n = false) after) =
  Z.of_nat (length (filter (λ n, iui_disabled n = false) before)).
Proof.
  intros Hnd Hf. apply findIndex_first; [|by apply bool_decide_eq_true].
  apply Forall_forall. intros n Hn. apply bool_decide_eq_false. intros Heq.
  apply list_elem_of_filter in Hn as [_ Hn].
  rewrite fmap_app, fmap_cons in Hnd.
  apply NoDup_app in Hnd as (_ & Hdisj & _).
  apply (Hdisj (elem n)); [by apply list_elem_of_fmap_2|].
  rewrite Heq. apply list_elem_of_here.
Qed.

End TreeKeys.

Section TreeArrows.
Implicit Types (n f g : NodeElement) (dom : Dom).

Lemma focusAt_some nodes done i n :
  at_index nodes i = Some n →
  focusAt nodes done i = Normal (done ++ [Focus (elem n); PreventDefault]).
Proof.
  intros Hn. unfold focusAt. rewrite Hn.
  unfold at_index in Hn. destruct (decide (0 ≤ i)%Z); [|done].
  apply lookup_lt_Some in Hn. by rewrite decide_True by lia.
Qed.

Lemma focusAt_out nodes done i :
  (i < 0 ∨ Z.of_nat (length nodes) ≤ i)%Z → focusAt nodes done i = Normal done.
Proof. intros Hi. unfold focusAt. by rewrite decide_False by lia. Qed.

Lemma handleKeyDown_at before f after key :
  NoDup (elem <$> (before ++ f :: after)) → Enabled f →
  let nodes := filter (λ n, iui_disabled n = false) before ++ f ::
               filter (λ n, iui_disabled n = false) after in
  let currentIndex := Z.of_nat (length (filter (λ n, iui_disabled n = false) before)) in
  (key = "ArrowDown" →
   handleKeyDown {| treeNodes := before ++ f :: after; activeElement := elem f |} key =
   focusAt nodes [] (currentIndex + 1)) ∧
  (key = "ArrowUp" →
   handleKeyDown {| treeNodes := before ++ f :: after; activeElement := elem f |} key =
   focusAt nodes [] (currentIndex - 1)).
Proof.
  intros Hnd Hf nodes currentIndex.
  assert (Hat : at_index nodes currentIndex = Some f) by apply at_index_middle.
  assert (Hlen : length nodes ≠ 0) by (unfold nodes; rewrite length_app; simpl; lia).
  split; intros ->; unfold handleKeyDown;
    rewrite enabledNodes_split by done; simpl activeElement;
    rewrite currentIndex_split by done; fold nodes currentIndex;
    rewrite (decide_False (P := length nodes = 0)) by done; rewrite Hat.
  - by rewrite decide_True.
  - by rewrite decide_False, decide_True.
Qed.

(** C1. With an enabled node [f] focused, ArrowDown focuses the next enabled
    node after [f] in document order, whatever disabled nodes lie between, and
    does nothing when no enabled node follows; ArrowUp does the same towards
    the previous enabled node. *)
Theorem arrow_keys_move_to_adjacent_enabled_node before f after :
  NoDup (elem <$> (before ++ f :: after)) → Enabled f →
  let dom := {| treeNodes := before ++ f :: after; activeElement := elem f |} in
  (∀ skipped g rest,
     after = skipped ++ g :: rest → Forall Disabled skipped → Enabled g →
     handleKeyDown dom "ArrowDown" = Normal [Focus (elem g); PreventDefault] ∧
     activeAfter dom [Focus (elem g); PreventDefault] = elem g) ∧
  (Forall Disabled after →
     handleKeyDown dom "ArrowDown" = Normal [] ∧ activeAfter dom [] = elem f) ∧
  (∀ rest g skipped,
     before = rest ++ g :: skipped → Forall Disabled skipped → Enabled g →
     handleKeyDown dom "ArrowUp" = Normal [Focus (elem g); PreventDefault] ∧
     activeAfter dom [Focus (elem g); PreventDefault] = elem g) ∧
  (Forall Disabled before →
     handleKeyDown dom "ArrowUp" = Normal [] ∧ activeAfter dom [] = elem f).
Proof.
  intros Hnd Hf dom.
  destruct (handleKeyDown_at before f after "ArrowDown" Hnd Hf) as [Hdown _].
  destruct (handleKeyDown_at before f after "ArrowUp" Hnd Hf) as [_ Hup].
  specialize (Hdown eq_refl). specialize (Hup eq_refl).
  split; [|split; [|split]].
  - intros skipped g rest -> Hsk Hg. split; [|done].
    subst dom. rewrite Hdown.
    rewrite filter_app, (filter_off skipped), filter_cons_True by done. simpl.
    by rewrite (focusAt_some _ _ _ g) by apply at_index_after.
  - intros Hoff. split; [|done].
    subst dom. rewrite Hdown, (filter_off after) by done.
    apply focusAt_out. right. rewrite length_app. simpl. lia.
  - intros rest g skipped -> Hsk Hg. split; [|done].
    subst dom. rewrite Hup.
    rewrite filter_app, filter_cons_True, (filter_off skipped) by done.
    rewrite <- app_assoc. simpl.
    apply (focusAt_some _ [] _ g), at_index_before.
  - intros Hoff. split; [|done].
    subst dom. rewrite Hup, (filter_off before) by done.
    apply focusAt_out. left. simpl. lia.
Qed.

End TreeArrows.

(** ** The flattening pass *)

Section WalkFacts.
Context {T : Type}.
Variable describe : T → NodeData T.
Implicit Types (e c r : T) (p q : list nat) (cs : list T).

Lemma blocks_elem (w : T → list (list nat)) j cs p :
  p ∈ blocks w j cs ↔ ∃ k c q, p = (j + k) :: q ∧ cs !! k = Some c ∧ q ∈ w c.
Proof.
  revert j. induction cs as [|c cs IH]; intros j; simpl.
  - split; [by intros ?%elem_of_nil|]. by intros (k & c & q & _ & ? & _).
  - rewrite elem_of_app, list_elem_of_fmap, IH. split.
    + intros [(q & -> & Hq)|(k & c' & q & -> & Hk & Hq)].
      * exists 0, c, q. by rewrite Nat.add_0_r.
      * exists (S k), c', q. split_and!; [f_equal; lia|done..].
    + intros (k & c' & q & -> & Hk & Hq). destruct k as [|k]; simpl in Hk.
      * left. exists q. rewrite Nat.add_0_r. by simplify_eq.
      * right. exists k, c', q. split_and!; [f_equal; lia|done..].
Qed.

Lemma walk_sound fuel e q : q ∈ walk describe fuel e → ∃ x, Shown describe e q x.
Proof.
  revert e q. induction fuel as [|fuel IH]; intros e q; simpl.
  - by intros ?%elem_of_nil.
  - intros [->|Hq]%elem_of_cons; [exists e; constructor|].
    destruct (truthy (isExpanded (describe e))) eqn:Hexp; [|by apply elem_of_nil in Hq].
    apply blocks_elem in Hq as (k & c & q' & -> & Hk & Hq').
    destruct (IH _ _ Hq') as [x Hx]. exists x. by econstructor.
Qed.

Section Ranked.
Variable rank : T → nat.
Hypothesis rank_children :
  ∀ e c, truthy (isExpanded (describe e)) = true → c ∈ children describe e → rank c < rank e.

Lemma walk_complete fuel e q x :
  Shown describe e q x → rank e < fuel → q ∈ walk describe fuel e.
Proof.
  intros Hshown. revert fuel.
  induction Hshown as [r|r j c p e Hexp Hj _ IH]; intros [|fuel] Hfuel; try lia; simpl.
  - apply list_elem_of_here.
  - apply list_elem_of_further. rewrite Hexp. apply blocks_elem.
    exists j, c, p. split_and!; [done..|]. apply IH.
    assert (rank c < rank r); [|lia].
    apply rank_children; [done|]. by eapply list_elem_of_lookup_2.
Qed.

End Ranked.

Lemma preorder_lt_cons j p q :
  preorder_lt p q → preorder_lt (j :: p) (j :: q).
Proof. simpl. auto. Qed.

Lemma blocks_sorted (w : T → list (list nat)) j cs :
  (∀ c, StronglySorted preorder_lt (w c)) →
  StronglySorted preorder_lt (blocks w j cs).
Proof.
  intros Hw. revert j. induction cs as [|c cs IH]; intros j; simpl; [constructor|].
  apply StronglySorted_app. split_and!; [| |apply IH].
  - intros p q (p' & -> & _)%list_elem_of_fmap (k & c' & q' & -> & _)%blocks_elem.
    simpl. left. lia.
  - specialize (Hw c). induction Hw as [|p ps _ IHs Hall]; simpl; [constructor|].
    constructor; [done|]. apply Forall_fmap. eapply Forall_impl; [done|].
    intros q Hq. by apply preorder_lt_cons.
Qed.

Lemma walk_sorted fuel e : StronglySorted preorder_lt (walk describe fuel e).
Proof.
  revert e. induction fuel as [|fuel IH]; intros e; simpl; [constructor|].
  constructor.
  - destruct (truthy _); [|constructor]. by apply blocks_sorted.
  - destruct (truthy _); [|constructor]. apply Forall_forall.
    by intros p (k & c & q & -> & _)%blocks_elem.
Qed.

End WalkFacts.

Section AllocatingPass.
Context {T : Type}.
Variable describe : T → NodeData T.
Variable getNode : GetNode T.
Hypothesis getNode_allocates : allocates describe getNode.
Variable rank : T → nat.
Hypothesis rank_children :
  ∀ e c, truthy (isExpanded (describe e)) = true → c ∈ children describe e → rank c < rank e.

Lemma entry_weaken h h' e d l q :
  h ⊆ h' → entry describe h e d l q → entry describe h' e d l q.
Proof. intros Hsub (x & ? & ?). exists x. split; [done|]. by eapply lookup_weaken. Qed.

Lemma forEach_allocating fuel d :
  (∀ e h fl, rank e < fuel →
     ∃ h' ls, addSubNodes getNode fuel e d (h, fl) = Normal (h', fl ++ ls) ∧
              h ⊆ h' ∧ Forall2 (entry describe h' e d) ls (walk describe fuel e)) →
  ∀ cs j h fl, (∀ c, c ∈ cs → rank c < fuel) →
     ∃ h' ls, forEach cs (λ c, addSubNodes getNode fuel c d) (h, fl) = Normal (h', fl ++ ls) ∧
              h ⊆ h' ∧ Forall2 (entries describe h' cs j d) ls (blocks (walk describe fuel) j cs).
Proof.
  intros Hone. induction cs as [|c cs IH]; intros j h fl Hrank; simpl.
  - exists h, []. rewrite app_nil_r. split_and!; [done..|constructor].
  - destruct (Hone c h fl) as (h1 & ls1 & -> & Hsub1 & Hls1).
    { apply Hrank, list_elem_of_here. }
    destruct (IH (S j) h1 (fl ++ ls1)) as (h2 & ls2 & -> & Hsub2 & Hls2).
    { intros c' Hc'. by apply Hrank, list_elem_of_further. }
    exists h2, (ls1 ++ ls2). rewrite app_assoc. split_and!; [done|by etrans|].
    apply Forall2_app.
    + apply Forall2_fmap_r. eapply Forall2_impl; [done|].
      intros l q Hq. exists 0, c, q. rewrite Nat.add_0_r.
      split_and!; [done..|]. by eapply entry_weaken.
    + eapply Forall2_impl; [done|].
      intros l p (k & c' & q & -> & Hk & Hq). exists (S k), c', q.
      split_and!; [f_equal; lia|done..].
Qed.

Lemma addSubNodes_allocating fuel :
  ∀ d e h fl, rank e < fuel →
    ∃ h' ls, addSubNodes getNode fuel e d (h, fl) = Normal (h', fl ++ ls) ∧
             h ⊆ h' ∧ Forall2 (entry describe h' e d) ls (walk describe fuel e).
Proof.
  induction fuel as [|fuel IH]; intros d e h fl Hrank; [lia|].
  cbn [addSubNodes walk fst snd].
  destruct (getNode_allocates e h) as (l & Hfresh & ->).
  rewrite lookup_insert_eq, insert_insert_eq. cbn [setDepth isExpanded subNodes].
  set (h2 := <[l := setDepth d (describe e)]> h).
  assert (Hsub : h ⊆ h2) by by apply insert_subseteq.
  assert (Hhere : entry describe h2 e d l []).
  { exists e. split; [constructor|]. unfold h2. rewrite lookup_insert_eq.
    simpl. by rewrite Nat.add_0_r. }
  destruct (truthy (isExpanded (describe e))) eqn:Hexp; cycle 1.
  { exists h2, [l]. split_and!; [done..|]. by repeat constructor. }
  unfold children. destruct (subNodes (describe e)) as [subs|] eqn:Hsubs; cycle 1.
  { exists h2, [l]. split_and!; [done..|]. by repeat constructor. }
  destruct (forEach_allocating fuel (d + 1) (IH (d + 1)) subs 0 h2 (fl ++ [l]))
    as (h3 & ls & -> & Hsub3 & Hls).
  { intros c Hc. assert (rank c < rank e); [|lia].
    apply rank_children; [done|]. unfold children. by rewrite Hsubs. }
  exists h3, (l :: ls). rewrite <- app_assoc. split_and!; [done|by trans h2|].
  constructor; [by apply (entry_weaken h2)|].
  eapply Forall2_impl; [done|].
  intros l' p (k & c & q & -> & Hk & x & Hx & Hl'). exists x. split.
  - econstructor; [done| |done]. unfold children. by rewrite Hsubs.
  - rewrite Hl'. simpl. do 2 f_equal. lia.
Qed.

Lemma flatNodesList_allocating fuel data h :
  (∀ r, r ∈ data → rank r < fuel) →
  ∃ h' flatList,
    flatNodesList getNode fuel data h = Normal (h', flatList) ∧
    h ⊆ h' ∧
    Flattened describe data h' flatList.
Proof.
  intros Hrank. unfold flatNodesList.
  destruct (forEach_allocating fuel 0 (addSubNodes_allocating fuel 0) data 0 h [] Hrank)
    as (h' & ls & -> & Hsub & Hls).
  exists h', ls. split_and!; [done..|].
  exists (blocks (walk describe fuel) 0 data). split_and!.
  - intros p. rewrite blocks_elem. split.
    + intros (k & c & q & -> & Hk & Hq). destruct (walk_sound _ _ _ _ Hq) as [x Hx].
      exists x, c. done.
    + intros (e & He). destruct p as [|i q]; [done|]. destruct He as (r & Hr & He).
      exists i, r, q. split_and!; [done..|].
      eapply walk_complete; [done..|]. by eapply Hrank, list_elem_of_lookup_2.
  - apply blocks_sorted. intros c. apply walk_sorted.
  - eapply Forall2_impl; [done|].
    intros l p (k & c & q & -> & Hk & x & Hx & Hl). exists x. split.
    + by exists c.
    + rewrite Hl. simpl. do 2 f_equal. lia.
Qed.

End AllocatingPass.

Lemma height_subItems (t c : Samples.TestData) :
  c ∈ Samples.subItems t → Samples.height c < Samples.height t.
Proof.
  destruct t as [i lbl subs]. simpl.
  induction subs as [|s subs IH]; simpl; [by intros ?%elem_of_nil|].
  intros [->|Hc]%elem_of_cons; [lia|]. specialize (IH Hc). lia.
Qed.

Lemma getNode_fresh_allocates {T} (describe : T → NodeData T) :
  allocates describe (getNode_fresh describe).
Proof.
  intros e h. exists (fresh (dom h)). split; [|done].
  apply not_elem_of_dom, is_fresh.
Qed.

(** C4 (as amended). When [getNode] builds a new object for every call and
    the expanded part of the data is finite, the pass returns, and its list
    holds exactly the nodes all of whose ancestors are expanded, in
    depth-first preorder, each with its distance from its root as depth. *)
Theorem flatNodesList_of_fresh_nodes {T} (describe : T → NodeData T)
    (getNode : GetNode T) (rank : T → nat) (fuel : nat) (data : list T) (h : heap T) :
  allocates describe getNode →
  (∀ e c, truthy (isExpanded (describe e)) = true → c ∈ children describe e →
          rank c < rank e) →
  (∀ r, r ∈ data → rank r < fuel) →
  ∃ h' flatList,
    flatNodesList getNode fuel data h = Normal (h', flatList) ∧
    Flattened describe data h' flatList.
Proof.
  intros Halloc Hrank Hfuel.
  destruct (flatNodesList_allocating describe getNode Halloc rank Hrank fuel data h Hfuel)
    as (h' & flatList & Hrun & _ & Hflat).
  by exists h', flatList.
Qed.

Lemma flatNodesList_of_fresh_nodes_witness :
  ∃ h' flatList,
    flatNodesList (getNode_fresh (Samples.testDescribe ["Node-1-1"] [])) 4
      Samples.nestedData ∅ = Normal (h', flatList) ∧
    Flattened (Samples.testDescribe ["Node-1-1"] []) Samples.nestedData h' flatList.
Proof.
  apply (flatNodesList_of_fresh_nodes _ _ Samples.height).
  - apply getNode_fresh_allocates.
  - intros e c _ Hc. by apply height_subItems.
  - intros r ->%list_elem_of_singleton. vm_compute. lia.
Defined.

Lemma shared_run :
  flatNodesList (Samples.sharingGetNode) 2 Samples.sharedData ∅ =
  Normal (Samples.sharedHeap, [0; 1; 1]).
Proof. vm_compute. reflexivity. Qed.

Lemma shared_root_paths p e :
  length p - 1 = 0 → ShownIn Samples.sharedDescribe Samples.sharedData p e →
  nodeId (Samples.sharedDescribe e) = "b" → p = [1].
Proof.
  destruct p as [|i [|j q]]; simpl; [done| |lia].
  intros _ (r & Hr & Hshown) Hid. inversion Hshown; subst.
  destruct i as [|[|i]]; simpl in Hr; [|done|done].
  by simplify_eq.
Qed.

(** C4, counterexample. With a [getNode] that hands out one object per
    element, and an element that is both a root and a child of an expanded
    root, the object is pushed twice and carries one depth: the list is not
    the list of shown nodes with their distances. *)
Lemma flatNodesList_shared_nodes_counterexample :
  flatNodesList (Samples.sharingGetNode) 2 Samples.sharedData ∅ =
    Normal (Samples.sharedHeap, [0; 1; 1]) ∧
  renderedDepths Samples.sharedHeap [0; 1; 1] = [Some 0; Some 0; Some 0] ∧
  ¬ Flattened Samples.sharedDescribe Samples.sharedData Samples.sharedHeap [0; 1; 1].
Proof.
  split; [apply shared_run|]. split; [by vm_compute|].
  intros (paths & _ & Hsorted & Hentries).
  apply Forall2_cons_inv_l in Hentries as (p0 & paths1 & _ & Hentries & ->).
  apply Forall2_cons_inv_l in Hentries as (p1 & paths2 & (e1 & Hp1 & He1) & Hentries & ->).
  apply Forall2_cons_inv_l in Hentries as (p2 & paths3 & (e2 & Hp2 & He2) & Hentries & ->).
  apply Forall2_nil_inv_l in Hentries as ->.
  assert (Hb : ∀ (p : list nat) e, Samples.sharedHeap !! 1 =
                       Some (setDepth (length p - 1) (Samples.sharedDescribe e)) →
                     length p - 1 = 0 ∧ nodeId (Samples.sharedDescribe e) = "b").
  { intros p e. unfold Samples.sharedHeap. rewrite lookup_insert_eq.
    intros Heq. split.
    - apply (f_equal (λ o, o ≫= depth)) in Heq. simpl in Heq. by injection Heq as <-.
    - apply (f_equal (fmap nodeId)) in Heq. simpl in Heq. by injection Heq as <-. }
  destruct (Hb _ _ He1) as [Hd1 Hi1]. destruct (Hb _ _ He2) as [Hd2 Hi2].
  rewrite (shared_root_paths p1 e1), (shared_root_paths p2 e2) in Hsorted by done.
  apply StronglySorted_inv in Hsorted as [Hsorted _].
  apply StronglySorted_inv in Hsorted as [_ Hlt].
  apply Forall_cons in Hlt as [Hlt _]. simpl in Hlt. lia.
Qed.

(** ** What the pass writes *)

Section Frame.
Context {T : Type}.
Variable getNode : GetNode T.
Hypothesis getNode_keeps : keepsObjects getNode.
Implicit Types (st : heap T * list nat) (written : list nat).

Lemma sameButDepth_refl (a : NodeData T) : sameButDepth a a.
Proof. by repeat split. Qed.

Lemma sameButDepth_trans (a b c : NodeData T) :
  sameButDepth a b → sameButDepth b c → sameButDepth a c.
Proof. unfold sameButDepth. intros (?&?&?&?&?) (?&?&?&?&?). split_and!; congruence. Qed.

Lemma grows_refl st : grows st st.
Proof.
  split; [done|]. intros k v Hk. exists v.
  split_and!; [done|apply sameButDepth_refl|done].
Qed.

Lemma grows_trans st1 st2 st3 : grows st1 st2 → grows st2 st3 → grows st1 st3.
Proof.
  intros [Hsub12 H12] [Hsub23 H23]. split; [by trans st2.2|].
  intros k v Hk.
  destruct (H12 k v Hk) as (v2 & Hk2 & Hsame2 & Hun2).
  destruct (H23 k v2 Hk2) as (v3 & Hk3 & Hsame3 & Hun3).
  exists v3. split_and!; [done|by eapply sameButDepth_trans|].
  intros Hnot. rewrite Hun3 by done. apply Hun2. intros Hin. by apply Hnot, Hsub23.
Qed.

Lemma grows_step e h fl l h1 obj d :
  getNode e h = (l, h1) → h1 !! l = Some obj →
  grows (h, fl) (<[l := setDepth d obj]> h1, fl ++ [l]).
Proof.
  intros Hget Hobj. split; simpl.
  - intros k Hk. apply elem_of_app. by left.
  - intros k v Hk. assert (Hk1 : h1 !! k = Some v).
    { eapply lookup_weaken; [done|]. by eapply getNode_keeps. }
    destruct (decide (k = l)) as [->|Hne].
    + exists (setDepth d obj). rewrite lookup_insert_eq. simplify_eq.
      split_and!; [done|by repeat split|].
      intros []. apply elem_of_app. right. apply list_elem_of_here.
    + exists v. rewrite lookup_insert_ne by done.
      split_and!; [done|apply sameButDepth_refl|done].
Qed.

Lemma forEach_grows {A} (f : A → heap T * list nat → completion (heap T * list nat))
    (xs : list A) :
  (∀ x st st', f x st = Normal st' → grows st st') →
  ∀ st st', forEach xs f st = Normal st' → grows st st'.
Proof.
  intros Hf. induction xs as [|x xs IH]; intros st st'; simpl.
  - intros [= <-]. apply grows_refl.
  - destruct (f x st) as [st1| |] eqn:Hx; [|done..].
    intros Hrest. eapply grows_trans; [by eapply Hf|by apply IH].
Qed.

Lemma addSubNodes_grows fuel :
  ∀ e d st st', addSubNodes getNode fuel e d st = Normal st' → grows st st'.
Proof.
  induction fuel as [|fuel IH]; intros e d [h fl] st'; [done|].
  cbn [addSubNodes fst snd].
  destruct (getNode e h) as [l h1] eqn:Hget.
  destruct (h1 !! l) as [obj|] eqn:Hobj; [|done].
  assert (Hstep := grows_step e h fl l h1 obj d Hget Hobj).
  destruct (truthy (isExpanded (setDepth d obj))).
  - destruct (subNodes (setDepth d obj)) as [subs|].
    + intros Hsubs. eapply grows_trans; [exact Hstep|].
      eapply (forEach_grows _ subs) in Hsubs; [done|].
      intros x st1 st2. apply IH.
    + by intros [= <-].
  - by intros [= <-].
Qed.

Lemma flatNodesList_grows fuel data h h' flatList :
  flatNodesList getNode fuel data h = Normal (h', flatList) →
  writesDepthOf flatList h h'.
Proof.
  unfold flatNodesList. intros Hrun.
  eapply (forEach_grows _ data) in Hrun; [by destruct Hrun|].
  intros x st st'. apply addSubNodes_grows.
Qed.

(** The objects [P] stay in the store and out of the list. *)
Section Apart.
Variable P : nat → Prop.
Hypothesis getNode_apart : apartFrom getNode P.

Lemma forEach_apart {A} (f : A → heap T * list nat → completion (heap T * list nat))
    (xs : list A) :
  (∀ x st st', f x st = Normal st' → apart P st → apart P st') →
  ∀ st st', forEach xs f st = Normal st' → apart P st → apart P st'.
Proof.
  intros Hf. induction xs as [|x xs IH]; intros st st'; simpl.
  - by intros [= <-].
  - destruct (f x st) as [st1| |] eqn:Hx; [|done..].
    intros Hrest Hst. eapply IH; [done|]. by eapply Hf.
Qed.

Lemma addSubNodes_apart fuel :
  ∀ e d st st', addSubNodes getNode fuel e d st = Normal st' → apart P st → apart P st'.
Proof.
  induction fuel as [|fuel IH]; intros e d [h fl] st'; [done|].
  cbn [addSubNodes fst snd].
  destruct (getNode e h) as [l h1] eqn:Hget.
  destruct (h1 !! l) as [obj|] eqn:Hobj; [|done].
  intros Hrun [Hin Hout].
  assert (Hstep : apart P (<[l := setDepth d obj]> h1, fl ++ [l])).
  { split; simpl.
    - intros k Hk. destruct (Hin k Hk) as [v Hv].
      destruct (decide (k = l)) as [->|Hne]; [by rewrite lookup_insert_eq|].
      rewrite lookup_insert_ne by done. exists v.
      eapply lookup_weaken; [done|]. by eapply getNode_keeps.
    - apply Forall_app. split; [done|]. apply Forall_singleton.
      by eapply getNode_apart. }
  revert Hrun. destruct (truthy (isExpanded (setDepth d obj))).
  - destruct (subNodes (setDepth d obj)) as [subs|].
    + intros Hsubs. eapply (forEach_apart _ subs) in Hsubs; [done| |done].
      intros x st1 st2. apply IH.
    + by intros [= <-].
  - by intros [= <-].
Qed.

Lemma flatNodesList_apart fuel data h h' flatList :
  (∀ k, P k → is_Some (h !! k)) →
  flatNodesList getNode fuel data h = Normal (h', flatList) →
  Forall (λ l, ¬ P l) flatList.
Proof.
  unfold flatNodesList. intros Hin Hrun.
  eapply (forEach_apart _ data) in Hrun as [_ Hout]; [done| |by split].
  intros x st st'. apply addSubNodes_apart.
Qed.

End Apart.

End Frame.

(** C9. The pass changes no object that exists but in its [depth] field, and
    only objects whose reference [getNode] returned during the pass, the
    entries of its list. So when [getNode], called on a store that holds the
    elements of [data], returns none of them (it builds its objects itself,
    as the [getNode] of the repository does, or keeps them apart), every
    element of [data] is left as it was, in every field. ([objectOf] gives
    the identity of an element that is an object; [getNode] is the caller's
    code, and is taken not to write to existing objects itself.) *)
Theorem flatNodesList_leaves_data_unchanged {T} (getNode : GetNode T)
    (objectOf : T → option nat) (fuel : nat) (data : list T) (h h' : heap T)
    (flatList : list nat) :
  keepsObjects getNode →
  (∀ x l, x ∈ data → objectOf x = Some l → is_Some (h !! l)) →
  apartFrom getNode (λ l, ∃ x, x ∈ data ∧ objectOf x = Some l) →
  flatNodesList getNode fuel data h = Normal (h', flatList) →
  writesDepthOf flatList h h' ∧
  (∀ x l, x ∈ data → objectOf x = Some l → (l ∉ flatList) ∧ h' !! l = h !! l).
Proof.
  intros Hkeeps Hstored Hapart Hrun.
  assert (Hw := flatNodesList_grows getNode Hkeeps fuel data h h' flatList Hrun).
  split; [done|].
  intros x l Hx Hl.
  assert (Hout : l ∉ flatList).
  { eapply (flatNodesList_apart getNode Hkeeps _ Hapart) in Hrun.
    - rewrite Forall_forall in Hrun. intros Hin. apply (Hrun l Hin). by exists x.
    - intros k (y & Hy & Hk). by eapply Hstored. }
  split; [done|].
  destruct (Hstored x l Hx Hl) as [v Hv].
  destruct (Hw l v Hv) as (v' & Hv' & _ & Hsame).
  by rewrite Hv', Hv, Hsame.
Qed.

Lemma allocates_keepsObjects {T} (describe : T → NodeData T) (getNode : GetNode T) :
  allocates describe getNode → keepsObjects getNode.
Proof.
  intros Halloc e h l h1 Hget. destruct (Halloc e h) as (l' & Hfresh & Hget').
  rewrite Hget' in Hget. injection Hget as <- <-. by apply insert_subseteq.
Qed.

(** A [getNode] that builds a new object on every call returns no object
    that is in the store already. *)
Lemma allocates_apartFrom {T} (describe : T → NodeData T) (getNode : GetNode T)
    (P : nat → Prop) :
  allocates describe getNode → apartFrom getNode P.
Proof.
  intros Halloc e h l h1 Hstored Hget Hl. destruct (Halloc e h) as (l' & Hfresh & Hget').
  rewrite Hget' in Hget. injection Hget as <- <-.
  destruct (Hstored l' Hl) as [v Hv]. congruence.
Qed.

Lemma flatNodesList_leaves_data_unchanged_witness :
  ∃ h' flatList,
    flatNodesList (getNode_fresh Samples.sharedDescribe) 2 Samples.sharedData
      Samples.callerHeap = Normal (h', flatList) ∧
    writesDepthOf flatList Samples.callerHeap h' ∧
    (∀ x l, x ∈ Samples.sharedData → Some x = Some l →
            (l ∉ flatList) ∧ h' !! l = Samples.callerHeap !! l).
Proof.
  eexists _, _. split; [vm_compute; reflexivity|].
  apply (flatNodesList_leaves_data_unchanged (getNode_fresh Samples.sharedDescribe) Some 2
           Samples.sharedData Samples.callerHeap).
  - eapply allocates_keepsObjects, getNode_fresh_allocates.
  - intros x l Hx [= <-]. apply list_elem_of_In in Hx. simpl in Hx.
    destruct Hx as [<-|[<-|[]]]; by eexists.
  - eapply allocates_apartFrom, getNode_fresh_allocates.
  - vm_compute. reflexivity.
Defined.

(** ** Key events outside the enabled nodes *)

(** C3 (the code departs from it). When the tree has an enabled node and the
    active element is none of the enabled nodes, [findIndex] gives [-1], the
    lookup [nodes[-1]] is [undefined], and the handler throws on
    [.querySelector], whatever the key. In the combo box the initializer of
    [focusedIndex] runs in the first render before [selectedValueId] is
    declared, and reading that [const] throws. *)
Theorem tree_keys_and_first_render_throw {T} (dom : Dom) (key : string) :
  enabledNodes dom ≠ [] →
  Forall (λ n, elem n ≠ activeElement dom) (enabledNodes dom) →
  handleKeyDown dom key = Throw TypeError ∧
  ComboBox.firstFocusedIndex (T := T) = Throw ReferenceError.
Proof.
  intros Hne Hoff. split; [|done]. unfold handleKeyDown.
  rewrite decide_False by by destruct (enabledNodes dom).
  rewrite findIndex_absent; [done|].
  eapply Forall_impl; [done|]. intros n Hn. by apply bool_decide_eq_false.
Qed.

Lemma tree_keys_and_first_render_throw_witness :
  handleKeyDown {| treeNodes := Samples.testNodes; activeElement := 0 |} "Tab" =
    Throw TypeError ∧
  ComboBox.firstFocusedIndex (T := nat) = Throw ReferenceError.
Proof.
  apply tree_keys_and_first_render_throw.
  - vm_compute. discriminate.
  - vm_compute. repeat constructor; discriminate.
Defined.

Lemma arrow_keys_move_to_adjacent_enabled_node_witness :
  handleKeyDown {| treeNodes := Samples.testNodes; activeElement := 1 |} "ArrowDown" =
    Normal [Focus 3; PreventDefault] ∧
  handleKeyDown {| treeNodes := Samples.testNodes; activeElement := 1 |} "ArrowUp" =
    Normal [].
Proof.
  assert (Hnd : NoDup (elem <$> ([] ++ Samples.node1 ::
                 [Samples.node2; Samples.node3; Samples.node31;
                  Samples.node311; Samples.node312]))).
  { apply (bool_decide_unpack _). vm_compute. exact I. }
  destruct (arrow_keys_move_to_adjacent_enabled_node [] Samples.node1 _ Hnd eq_refl)
    as (Hdown & _ & _ & Hup).
  split.
  - apply (Hdown [Samples.node2] Samples.node3
             [Samples.node31; Samples.node311; Samples.node312] eq_refl).
    + repeat constructor.
    + reflexivity.
  - apply Hup. constructor.
Defined.

(** ** Strings *)

Lemma startsWith_spec s search :
  startsWith s search = true ↔ ∃ post, s = search +:+ post.
Proof.
  revert s. induction search as [|p search IH]; intros s; simpl.
  - split; [by exists s|by destruct s].
  - destruct s as [|c s]; simpl.
    + split; [done|]. intros (post & Heq). simpl in Heq. done.
    + rewrite andb_true_iff, bool_decide_eq_true, IH. split.
      * intros (-> & post & ->). by exists post.
      * intros (post & Heq). simpl in Heq. injection Heq as -> ->. split; [done|]. by exists post.
Qed.

Lemma includes_spec s search :
  includes s search = true ↔ ∃ pre post, s = pre +:+ search +:+ post.
Proof.
  induction s as [|c s IH]; cbn [includes].
  - rewrite orb_false_r, startsWith_spec. split.
    + intros (post & ->). by exists "", post.
    + intros ([|c pre] & post & Heq); [by exists post|done].
  - rewrite orb_true_iff, IH, startsWith_spec. split.
    + intros [(post & ->)|(pre & post & ->)].
      * by exists "", post.
      * by exists (String c pre), post.
    + intros ([|c' pre] & post & Heq); simpl in Heq.
      * left. by exists post.
      * right. injection Heq as -> ->. by exists pre, post.
Qed.

(** ** The combo box *)

Section ComboFacts.
Context {T : Type} `{EqDecision T}.
Import ComboBox.
Implicit Types (s prev : State T) (props : Props T) (o : ExtendedSelectOption T).

Lemma filterEffect_closed props s : isOpen s = false → filterEffect props s = [].
Proof. intros Hclosed. unfold filterEffect. by rewrite Hclosed. Qed.

(** With unchanged dependencies no effect runs; a changed input runs the
    filter effect, which does nothing while the dropdown is closed. *)
Lemma effectsPass_quiet props prev s :
  sameDeps prev s → inputValue prev = inputValue s ∨ isOpen s = false →
  effectsPass props prev s = s.
Proof.
  intros (Hext & Hsel & Hopen) Hinput. unfold effectsPass.
  rewrite (bool_decide_eq_true_2 _ Hext), (bool_decide_eq_true_2 _ Hsel),
    (bool_decide_eq_true_2 _ Hopen), Hopen.
  rewrite andb_negb_r. simpl. rewrite !orb_false_r.
  destruct Hinput as [Hinput|Hclosed].
  - by rewrite (bool_decide_eq_true_2 _ Hinput).
  - rewrite filterEffect_closed by done. by destruct (negb _).
Qed.

Lemma settle_quiet passes props prev s :
  sameDeps prev s → inputValue prev = inputValue s ∨ isOpen s = false →
  settle passes props prev s = s.
Proof.
  revert prev. induction passes as [|n IH]; intros prev Hdeps Hinput; simpl; [done|].
  rewrite effectsPass_quiet by done. apply IH; [done|by left].
Qed.

(** The first pass decides the state when it leaves the dependencies of the
    second as they are. *)
Lemma settle_once passes props prev s :
  sameDeps s (effectsPass props prev s) →
  inputValue s = inputValue (effectsPass props prev s) ∨
    isOpen (effectsPass props prev s) = false →
  settle (S passes) props prev s = effectsPass props prev s.
Proof. intros Hdeps Hinput. simpl. by apply settle_quiet. Qed.


(** The filter effect touches the filtered list and the focused option only. *)
Lemma filterEffect_frame props s0 s :
  let s' := applyAll s (filterEffect props s0) in
  extendedOriginalOptions s' = extendedOriginalOptions s ∧
  selectedValueId s' = selectedValueId s ∧
  isOpen s' = isOpen s ∧
  inputValue s' = inputValue s ∧
  optionsMap s' = optionsMap s.
Proof.
  unfold filterEffect.
  destruct (negb (isOpen s0)); [done|].
  destruct (_ || _); [done|]. done.
Qed.

(** What the filter effect makes of the list, without a custom filter. *)
Lemma filterEffect_filtered props s :
  isOpen s = true → filterFunction props = None →
  filteredOptions (applyAll s (filterEffect props s)) =
  if negb (nonEmpty (inputValue s))
     || bool_decide (xlabel <$> selectedOption s = Some (inputValue s))
  then extendedOriginalOptions s
  else List.filter (matches (inputValue s)) (extendedOriginalOptions s).
Proof.
  intros Hopen Hnone. unfold filterEffect. rewrite Hopen, Hnone. simpl.
  by destruct (_ || _).
Qed.

Lemma nonEmpty_false (v : string) : nonEmpty v = false ↔ v = "".
Proof.
  unfold nonEmpty. rewrite negb_false_iff. apply String.eqb_eq.
Qed.

(** C2. While the dropdown is open and no [filterFunction] is supplied,
    typing [text] leaves the whole list of options when [text] is empty or is
    the label of the selected option, and otherwise exactly the options,
    in their order, whose lowercased label contains [text], trimmed and
    lowercased. *)
Theorem typing_filters_the_options props s (text : string) (passes : nat) :
  isOpen s = true → filterFunction props = None → text ≠ inputValue s →
  let s' := after (S passes) props s (onInput text) in
  inputValue s' = text ∧
  (text = "" ∨ xlabel <$> selectedOption s = Some text →
     filteredOptions s' = extendedOriginalOptions s) ∧
  (text ≠ "" → xlabel <$> selectedOption s ≠ Some text →
     filteredOptions s' = List.filter (matches text) (extendedOriginalOptions s) ∧
     ∀ o, o ∈ filteredOptions s' ↔
          o ∈ extendedOriginalOptions s ∧
          ∃ pre post, toLowerCase (xlabel o) = pre +:+ toLowerCase (trim text) +:+ post).
Proof.
  intros Hopen Hnone Hchanged s'.
  set (s0 := applyAll s (onInput text)).
  assert (Hpass : effectsPass props s s0 = applyAll s0 (filterEffect props s0)).
  { unfold effectsPass. simpl.
    rewrite !(bool_decide_eq_true_2 (_ = _)) by done.
    rewrite (bool_decide_eq_false_2 (inputValue s = text)) by done.
    rewrite Hopen. simpl. by rewrite app_nil_r. }
  assert (Hs' : s' = applyAll s0 (filterEffect props s0)).
  { unfold s', after. fold s0. rewrite settle_once; [done| |]; rewrite Hpass.
    - destruct (filterEffect_frame props s0 s0) as (? & ? & ? & _). by split_and!.
    - left. by destruct (filterEffect_frame props s0 s0) as (_ & _ & _ & -> & _). }
  assert (Hfiltered := filterEffect_filtered props s0 Hopen Hnone).
  rewrite <- Hs' in Hfiltered. simpl in Hfiltered.
  change (selectedOption s0) with (selectedOption s) in Hfiltered.
  split_and!.
  - rewrite Hs'. by destruct (filterEffect_frame props s0 s0) as (_ & _ & _ & -> & _).
  - intros [->|Hsel]; rewrite Hfiltered.
    + done.
    + rewrite (bool_decide_eq_true_2 _ Hsel). by rewrite orb_true_r.
  - intros Htext Hsel. rewrite Hfiltered.
    rewrite (bool_decide_eq_false_2 _ Hsel).
    destruct (nonEmpty text) eqn:Hne; [|by apply nonEmpty_false in Hne].
    simpl. split; [done|]. intros o.
    rewrite list_elem_of_In, filter_In, <- list_elem_of_In.
    unfold matches. by rewrite includes_spec.
Qed.

(** *** Arrow keys *)

Lemma findFrom_Some {A} (p : A → nat → bool) start (xs : list A) x :
  findFrom p start xs = Some x → ∃ i, xs !! i = Some x ∧ p x (start + i) = true.
Proof.
  revert start. induction xs as [|y xs IH]; intros start; simpl; [done|].
  destruct (p y start) eqn:Hy.
  - intros [= ->]. exists 0. by rewrite Nat.add_0_r.
  - intros (i & Hi & Hp)%IH. exists (S i). split; [done|].
    by replace (start + S i) with (S start + i) by lia.
Qed.

Lemma findFrom_None {A} (p : A → nat → bool) start (xs : list A) :
  (∀ i x, xs !! i = Some x → p x (start + i) = false) → findFrom p start xs = None.
Proof.
  revert start. induction xs as [|y xs IH]; intros start Hall; simpl; [done|].
  rewrite <- (Nat.add_0_r start) at 1. rewrite (Hall 0 y eq_refl).
  apply IH. intros i x Hi.
  replace (S start + i) with (start + S i) by lia. by apply Hall.
Qed.

Lemma scanUp_Some (filtered : list (ExtendedSelectOption T)) n o :
  scanUp filtered n = Some o → ∃ i, i < n ∧ filtered !! i = Some o ∧ enabled o = true.
Proof.
  induction n as [|n IH]; simpl; [done|].
  destruct (filtered !! n) as [o'|] eqn:Hn.
  - destruct (enabled o') eqn:Hen.
    + intros [= ->]. exists n. split_and!; [lia|done..].
    + intros (i & ? & ? & ?)%IH. exists i. split_and!; [lia|done..].
  - intros (i & ? & ? & ?)%IH. exists i. split_and!; [lia|done..].
Qed.

Lemma scanUp_None (filtered : list (ExtendedSelectOption T)) n :
  (∀ i o, filtered !! i = Some o → i < n → enabled o = false) → scanUp filtered n = None.
Proof.
  induction n as [|n IH]; intros Hall; simpl; [done|].
  destruct (filtered !! n) as [o'|] eqn:Hn.
  - rewrite (Hall n o' Hn) by lia. apply IH. intros i o ? ?. apply (Hall i); [done|lia].
  - apply IH. intros i o ? ?. apply (Hall i); [done|lia].
Qed.

(** *** Selecting an option *)

Lemma selectedOption_found s (i : string) o :
  selectedValueId s = Some i → i ≠ "" → optionsMap s !! i = Some o →
  selectedOption s = Some o.
Proof.
  intros Hsel Hne Hmap. unfold selectedOption. rewrite Hsel.
  destruct (nonEmpty i) eqn:Hi; [done|]. by apply nonEmpty_false in Hi.
Qed.







End ComboFacts.

Section ComboRendering.
Context {T : Type} `{EqDecision T}.
Import ComboBox.
Implicit Types (s : State T) (props : Props T).

(** C10. With an empty filtered list the menu of the dropdown without
    virtualization has exactly one entry, the empty-state entry with the
    [emptyStateMessage], or "No options found" when the property is absent.
    With [enableVirtualization] the virtual list is given the length of the
    filtered list, 0, as its number of items: whatever window it shows, it
    has no entry, and the item renderer, which would give the empty-state
    entry for every index, is not called. *)
Theorem empty_virtual_list_renders_nothing props s (window : list nat) :
  filteredOptions s = [] →
  (default false (enableVirtualization props) = false →
   menuEntries props s window =
     Normal [Some (MenuExtraContent (default "No options found" (emptyStateMessage props)))]) ∧
  (default false (enableVirtualization props) = true →
   menuEntries props s window = Normal [] ∧
   (∃ listId scrollToIndex,
      dropdownContent props s = VirtualMenu listId 0 scrollToIndex) ∧
   (∀ index, virtualizedItemRenderer props s index =
             Normal (MenuExtraContent (default "No options found" (emptyStateMessage props))))).
Proof.
  intros Hempty. split.
  - intros Hplain. unfold menuEntries, dropdownContent, menuItems.
    by rewrite Hplain, Hempty.
  - intros Hvirtual. unfold menuEntries, dropdownContent. rewrite Hvirtual, Hempty.
    split_and!.
    + unfold visibleChildren. cbn [length].
      assert (Hnone : List.filter (λ index, bool_decide (index < 0)) window = []).
      { induction window as [|index window IH]; [done|]. cbn [List.filter].
        by rewrite bool_decide_eq_false_2 by lia. }
      by rewrite Hnone.
    + by eexists _, _.
    + intros index. unfold virtualizedItemRenderer, getSingleMenuItem.
      by rewrite Hempty, lookup_nil.
Qed.

End ComboRendering.

Lemma empty_virtual_list_renders_nothing_witness :
  ComboBox.menuEntries Inputs.emptyProps (Samples.opened Inputs.emptyProps) [0; 1; 2] =
    Normal [Some (ComboBox.MenuExtraContent "No options found")] ∧
  ComboBox.menuEntries Inputs.emptyVirtualProps (Samples.opened Inputs.emptyVirtualProps)
    [0; 1; 2] = Normal [].
Proof.
  split.
  - apply (empty_virtual_list_renders_nothing Inputs.emptyProps
             (Samples.opened Inputs.emptyProps) [0; 1; 2]).
    + vm_compute. reflexivity.
    + reflexivity.
  - apply (empty_virtual_list_renders_nothing Inputs.emptyVirtualProps
             (Samples.opened Inputs.emptyVirtualProps) [0; 1; 2]).
    + vm_compute. reflexivity.
    + reflexivity.
Defined.

(** ** Roles and ARIA attributes *)

Lemma optionalProp_other (name k : string) (v : option string) :
  name ≠ k → optionalProp name v !! k = None.
Proof.
  intros Hne. unfold optionalProp. destruct v; [|apply lookup_empty].
  by apply lookup_singleton_ne.
Qed.

(** C5 (as amended). When [inputProps] carries no [role] and no
    [aria-controls] of its own, the input has the role [combobox], and
    [aria-controls] is there exactly while the dropdown is open, with the
    value [<id>-list], which is the id of the menu rendered without
    virtualization. The root of a tree has the role [tree]; the list item of
    a tree node has the role [treeitem] and [aria-expanded] equal to its
    [isExpanded], [false] when absent. *)
Theorem rendered_roles {T} `{EqDecision T} (props : ComboBox.Props T)
    (s : ComboBox.State T) (treeProps : CommonProps) (nodeProps : TreeNode.TreeNodeProps) :
  ComboBox.inputProps props !! "role" = None →
  ComboBox.inputProps props !! "aria-controls" = None →
  attribute (ComboBox.inputElementProps props s) "role" = Some (PStr "combobox") ∧
  attribute (ComboBox.inputElementProps props s) "aria-controls" =
    (if ComboBox.isOpen s then Some (PStr (ComboBox.cid s +:+ "-list")) else None) ∧
  (default false (ComboBox.enableVirtualization props) = false →
   ∃ children, ComboBox.dropdownContent props s =
               ComboBox.PlainMenu (ComboBox.cid s +:+ "-list") children) ∧
  attribute (rootProps treeProps) "role" = Some (PStr "tree") ∧
  attribute (TreeNode.itemProps nodeProps) "role" = Some (PStr "treeitem") ∧
  attribute (TreeNode.itemProps nodeProps) "aria-expanded" =
    Some (PBool (default false (TreeNode.isExpanded nodeProps))).
Proof.
  intros Hrole Hcontrols. split_and!.
  - unfold attribute, ComboBox.inputElementProps, spreadOver.
    rewrite lookup_insert_ne, lookup_union_r by done.
    by rewrite !lookup_insert_ne, lookup_insert_eq by done.
  - unfold attribute, ComboBox.inputElementProps, spreadOver.
    rewrite lookup_insert_ne, lookup_union_r by done.
    rewrite !lookup_insert_ne, lookup_insert_eq by done.
    by destruct (ComboBox.isOpen s).
  - intros Hplain. unfold ComboBox.dropdownContent. rewrite Hplain. by eexists.
  - unfold attribute, rootProps, spreadOver.
    rewrite lookup_union_r.
    + by rewrite lookup_insert_ne, lookup_insert_eq by done.
    + rewrite !lookup_union_None. by rewrite !optionalProp_other.
  - unfold attribute, TreeNode.itemProps, spreadOver.
    rewrite lookup_union_r.
    + by rewrite lookup_insert_eq.
    + rewrite !lookup_union_None. by rewrite !optionalProp_other.
  - unfold attribute, TreeNode.itemProps, spreadOver.
    rewrite lookup_union_r.
    + by rewrite !lookup_insert_ne, lookup_insert_eq by done.
    + rewrite !lookup_union_None. by rewrite !optionalProp_other.
Qed.

Lemma rendered_roles_witness :
  attribute (ComboBox.inputElementProps Samples.demoProps (Samples.opened Samples.demoProps))
    "role" = Some (PStr "combobox") ∧
  attribute (ComboBox.inputElementProps Samples.demoProps (Samples.opened Samples.demoProps))
    "aria-controls" = Some (PStr "cb-list") ∧
  attribute (TreeNode.itemProps Samples.plainNode) "aria-expanded" = Some (PBool false).
Proof.
  destruct (rendered_roles Samples.demoProps (Samples.opened Samples.demoProps)
              {| className := None; style := None; title := None; id := None |}
              Samples.plainNode eq_refl eq_refl)
    as (Hrole & Hcontrols & _ & _ & _ & Hexpanded).
  split_and!; [exact Hrole|exact Hcontrols|exact Hexpanded].
Defined.

(** C5, counterexample. [role] and [aria-controls] precede [{...inputProps}]
    among the properties of the input: with [inputProps={{ role: 'textbox' }}]
    the input has the role [textbox]. *)
Lemma rendered_roles_inputProps_counterexample :
  attribute (ComboBox.inputElementProps Samples.textboxProps
               (ComboBox.mount 3 "cb" Samples.textboxProps)) "role" =
    Some (PStr "textbox") ∧
  attribute (ComboBox.inputElementProps Samples.textboxProps
               (ComboBox.mount 3 "cb" Samples.textboxProps)) "role" ≠
    Some (PStr "combobox").
Proof. split; [by vm_compute|]. vm_compute. discriminate. Qed.


(** ** The combo box on the documented options *)

Lemma typing_filters_the_options_witness :
  ComboBox.filteredOptions
    (ComboBox.after 2 Samples.demoProps (Samples.opened Samples.demoProps)
       (ComboBox.onInput " EM 2 ")) = [Samples.demoItem 1].
Proof.
  destruct (typing_filters_the_options Samples.demoProps
              (Samples.opened Samples.demoProps) " EM 2 " 1)
    as (_ & _ & Hfilter).
  { vm_compute. reflexivity. }
  { reflexivity. }
  { vm_compute. discriminate. }
  destruct Hfilter as [Hfiltered _].
  { discriminate. }
  { vm_compute. discriminate. }
  rewrite Hfiltered. vm_compute. reflexivity.
Defined.

(** ** The tests of the repository, on the model *)

(** "should render in its most basic state": only nodes with expanded
    parents are rendered. *)
Example test_renders_nodes_of_expanded_parents :
  renderedNodes (flatNodesList (getNode_fresh (Samples.testDescribe ["Node-1"] [])) 3
                   Samples.basicData ∅) =
  Normal [Some ("Node-1", Some 0); Some ("Node-1-1", Some 1);
          Some ("Node-1-2", Some 1); Some ("Node-2", Some 0)].
Proof. vm_compute. reflexivity. Qed.

(** "should not render node if any parent above is not expanded" *)
Example test_hides_nodes_below_a_collapsed_parent :
  renderedNodes (flatNodesList (getNode_fresh (Samples.testDescribe ["Node-1-1"] [])) 3
                   Samples.nestedData ∅) =
  Normal [Some ("Node-1", Some 0)].
Proof. vm_compute. reflexivity. Qed.

(** "should handle arrow key navigation", the steps that move the focus:
    up on the first node, down and up over the disabled [Node-2], down twice,
    right over the disabled [Node-3-1-1], right on the collapsed
    [Node-3-1-2], down on the last node, left; and "Tab into checkbox" (the
    element [13], which is no node), after which a key makes the handler
    throw. *)
Example test_arrow_key_navigation :
  let from (e : nat) := {| treeNodes := Samples.testNodes; activeElement := e |} in
  let tab (a : nat) := a + 10 in
  focusAfterKeys tab (from 1) ["ArrowUp"] = Normal 1 ∧
  focusAfterKeys tab (from 1) ["ArrowDown"] = Normal 3 ∧
  focusAfterKeys tab (from 3) ["ArrowUp"] = Normal 1 ∧
  focusAfterKeys tab (from 1) ["ArrowDown"; "ArrowDown"] = Normal 4 ∧
  focusAfterKeys tab (from 4) ["ArrowRight"] = Normal 6 ∧
  focusAfterKeys tab (from 6) ["ArrowRight"; "ArrowDown"] = Normal 6 ∧
  focusAfterKeys tab (from 6) ["ArrowLeft"] = Normal 4 ∧
  focusAfterKeys tab (from 3) ["Tab"] = Normal 13 ∧
  focusAfterKeys tab (from 3) ["Tab"; "ArrowDown"] = Throw TypeError.
Proof. vm_compute. repeat split. Qed.

(** * Further properties of the sources *)

(** ** The other keys of the tree *)

Section TreeOtherKeys.
Import TreeDom.
Implicit Types (n f p : NodeElement) (dom : Dom).

Lemma findIndex_found {A} (p : A → bool) (xs : list A) i :
  findIndex p xs = i → i ≠ (-1)%Z →
  ∃ x, at_index xs i = Some x ∧ p x = true.
Proof.
  revert i. induction xs as [|x xs IH]; simpl; intros i Hi Hne; [congruence|].
  destruct (p x) eqn:Hx.
  - subst i. exists x. by rewrite Hx.
  - destruct (decide (findIndex p xs = (-1)%Z)) as [|Hr]; [congruence|].
    destruct (IH _ eq_refl Hr) as (y & Hy & Hpy). exists y. split; [|done].
    subst i. unfold at_index in *.
    destruct (decide (0 ≤ findIndex p xs)%Z) as [Hnn|]; [|done].
    rewrite decide_True by lia.
    replace (Z.to_nat (findIndex p xs + 1)) with (S (Z.to_nat (findIndex p xs))) by lia.
    done.
Qed.

(** With [f] focused, the handler finds it as the current node. *)
Lemma focused_current dom f :
  Focused dom f →
  ∃ currentIndex,
    findIndex (λ n, bool_decide (elem n = activeElement dom)) (enabledNodes dom) =
      currentIndex ∧
    at_index (enabledNodes dom) currentIndex = Some f ∧
    length (enabledNodes dom) ≠ 0.
Proof.
  intros (Hnd & Hin & Hf & Hactive). destruct dom as [nodes active].
  simpl in *. subst active.
  apply list_elem_of_split in Hin as (before & after & ->).
  rewrite enabledNodes_split by done.
  eexists. split; [done|]. rewrite currentIndex_split by done.
  split; [apply at_index_middle|]. rewrite length_app. simpl. lia.
Qed.

Lemma focusAt_effects nodes done i effects e :
  focusAt nodes done i = Normal effects → Focus e ∈ effects →
  Focus e ∈ done ∨ ∃ n, n ∈ nodes ∧ elem n = e.
Proof.
  unfold focusAt. case_decide as Hi.
  - destruct (at_index nodes i) as [n|] eqn:Hn; [|done]. intros [= <-].
    rewrite elem_of_app. intros [?|He]; [by left|]. right. exists n.
    unfold at_index in Hn. case_decide; [|done].
    split; [by eapply list_elem_of_lookup_2|].
    apply elem_of_cons in He as [[= ->]|He]; [done|].
    by apply list_elem_of_singleton in He.
  - intros [= <-]. by left.
Qed.

Lemma focusAt_clicks nodes done i effects (c : Effect) :
  focusAt nodes done i = Normal effects → c ∈ effects →
  (∀ e, c ≠ Focus e) → c ≠ PreventDefault → c ∈ done.
Proof.
  unfold focusAt. case_decide as Hi.
  - destruct (at_index nodes i) as [n|]; [|done]. intros [= <-].
    rewrite elem_of_app. intros [?|Hc] Hfocus Hprevent; [done|].
    apply elem_of_cons in Hc as [->|Hc]; [by destruct (Hfocus (elem n))|].
    by apply list_elem_of_singleton in Hc.
  - by intros [= <-].
Qed.

(** X1. Whatever the key and the tree, the handler calls [focus()] only on
    enabled nodes of the tree, and [click()] only on the node that has the
    focus or on the parent of its expander icon. *)
Theorem handleKeyDown_touches_enabled_nodes_only dom (key : string) effects :
  handleKeyDown dom key = Normal effects →
  (∀ e, Focus e ∈ effects → ∃ n, n ∈ treeNodes dom ∧ Enabled n ∧ elem n = e) ∧
  (∀ e, Click e ∈ effects ∨ ClickExpander e ∈ effects →
        e = activeElement dom ∧ ∃ n, n ∈ treeNodes dom ∧ Enabled n ∧ elem n = e).
Proof.
  unfold handleKeyDown. case_decide as Hlen.
  { intros [= <-]. split; [by intros e ?%elem_of_nil|].
    by intros e [?%elem_of_nil|?%elem_of_nil]. }
  destruct (at_index _ _) as [current|] eqn:Hcurrent; [|done].
  assert (Hcur : current ∈ treeNodes dom ∧ Enabled current ∧
                 elem current = activeElement dom).
  { pose proof Hcurrent as Hat. unfold at_index in Hat. case_decide as Hnn; [|done].
    apply list_elem_of_lookup_2, list_elem_of_filter in Hat as [Hen Hin].
    split_and!; [done..|].
    destruct (findIndex_found _ _ _ eq_refl
                (λ H, ltac:(rewrite H in Hnn; lia)) ) as (x & Hx & Hp).
    rewrite Hcurrent in Hx. injection Hx as <-. by apply bool_decide_eq_true in Hp. }
  destruct Hcur as (Hin & Hen & Hactive).
  assert (Hnodes : ∀ n, n ∈ enabledNodes dom → n ∈ treeNodes dom ∧ Enabled n).
  { intros n [? ?]%list_elem_of_filter. done. }
  assert (Hmove : ∀ done i,
    (∀ c, c ∈ done → c = ClickExpander (elem current)) →
    focusAt (enabledNodes dom) done i = Normal effects →
    (∀ e, Focus e ∈ effects → ∃ n, n ∈ treeNodes dom ∧ Enabled n ∧ elem n = e) ∧
    (∀ e, Click e ∈ effects ∨ ClickExpander e ∈ effects →
          e = activeElement dom ∧ ∃ n, n ∈ treeNodes dom ∧ Enabled n ∧ elem n = e)).
  { intros done i Hdone Hrun. split.
    - intros e He. destruct (focusAt_effects _ _ _ _ _ Hrun He) as [Hd|(n & Hn & <-)].
      + by apply Hdone in Hd.
      + exists n. by destruct (Hnodes n Hn).
    - intros e [He|He].
      + eapply focusAt_clicks in He; [|done..]. by apply Hdone in He.
      + eapply focusAt_clicks in He; [|done..]. apply Hdone in He. injection He as ->.
        split; [done|]. by exists current. }
  assert (Hnone : ∀ c : Effect, c ∈ [] → c = ClickExpander (elem current))
    by by intros c ?%elem_of_nil.
  assert (Hone : ∀ c, c ∈ [ClickExpander (elem current)] → c = ClickExpander (elem current))
    by by intros c ?%list_elem_of_singleton.
  repeat case_decide; try (by apply Hmove).
  - destruct (expander current) as [[]|]; by apply Hmove.
  - destruct (expander current) as [[]|]; by apply Hmove.
  - destruct (expander current) as [[]|]; try (by apply Hmove).
    intros [= <-]. split.
    + intros e He. apply list_elem_of_singleton in He. done.
    + intros e [He|He]; apply list_elem_of_singleton in He; [done|].
      injection He as ->. split; [done|]. by exists current.
  - intros [= <-]. split.
    + intros e He. apply elem_of_cons in He as [?|He]; [done|].
      by apply list_elem_of_singleton in He.
    + intros e [He|He].
      * apply elem_of_cons in He as [[= ->]|He]; [|by apply list_elem_of_singleton in He].
        split; [done|]. by exists current.
      * apply elem_of_cons in He as [?|He]; [done|].
        by apply list_elem_of_singleton in He.
Qed.

(** The handler with [f] focused: the [switch] on the key, with [f] as the
    current node. *)
Lemma handleKeyDown_focused dom f (key : string) :
  Focused dom f →
  ∃ currentIndex,
    at_index (enabledNodes dom) currentIndex = Some f ∧
    handleKeyDown dom "ArrowDown" = focusAt (enabledNodes dom) [] (currentIndex + 1) ∧
    handleKeyDown dom "ArrowUp" = focusAt (enabledNodes dom) [] (currentIndex - 1) ∧
    handleKeyDown dom key =
      if decide (key = "ArrowDown") then focusAt (enabledNodes dom) [] (currentIndex + 1)
      else if decide (key = "ArrowUp") then focusAt (enabledNodes dom) [] (currentIndex - 1)
      else if decide (key = "ArrowLeft") then
        match expander f with
        | Some true => focusAt (enabledNodes dom) [ClickExpander (elem f)] (-1)
        | _ =>
            if decide (parentIndexOf (enabledNodes dom) f ≠ (-1)%Z)
            then focusAt (enabledNodes dom) [] (parentIndexOf (enabledNodes dom) f)
            else focusAt (enabledNodes dom) [] (currentIndex - 1)
        end
      else if decide (key = "ArrowRight") then
        match expander f with
        | Some false => Normal [ClickExpander (elem f)]
        | _ => focusAt (enabledNodes dom) [] (currentIndex + 1)
        end
      else if decide (key = "Enter" ∨ key = " " ∨ key = "Spacebar") then
        Normal [Click (elem f); PreventDefault]
      else focusAt (enabledNodes dom) [] (-1).
Proof.
  intros (ci & Hci & Hat & Hlen)%focused_current. exists ci.
  split; [done|]. unfold handleKeyDown.
  rewrite !(decide_False (P := length (enabledNodes dom) = 0)) by done.
  rewrite Hci, Hat. split_and!; [by rewrite decide_True| |done].
  by rewrite decide_False, decide_True.
Qed.

Lemma parentIndexOf_none (nodes : list NodeElement) f :
  Forall (λ n, ¬ Owns f n) nodes → parentIndexOf nodes f = (-1)%Z.
Proof.
  intros Hnone. apply findIndex_absent. eapply Forall_impl; [done|].
  intros n Hn. simpl in Hn. destruct (parentOwns n) as [owns|] eqn:Howns; [|done].
  apply bool_decide_eq_false. intros Hin. apply Hn. by exists owns.
Qed.


(** X2. ArrowRight on the focused node: when its expander icon is there and
    not expanded, the parent of the icon is clicked and nothing else happens
    (no focus change, no [preventDefault]); otherwise the key does what
    ArrowDown does. *)
Theorem arrow_right_expands_or_moves_down dom f :
  Focused dom f →
  (expander f = Some false →
   handleKeyDown dom "ArrowRight" = Normal [ClickExpander (elem f)]) ∧
  (expander f ≠ Some false →
   handleKeyDown dom "ArrowRight" = handleKeyDown dom "ArrowDown").
Proof.
  intros Hfocused.
  destruct (handleKeyDown_focused dom f "ArrowRight" Hfocused)
    as (ci & _ & -> & _ & ->).
  rewrite !decide_False, decide_True by done.
  split; [by intros ->|]. by destruct (expander f) as [[]|].
Qed.


(** X4. Enter, the space character and "Spacebar" click the focused node and
    prevent the default action; the focus stays where it is. *)
Theorem activation_keys_click_the_focused_node dom f (key : string) :
  Focused dom f → key = "Enter" ∨ key = " " ∨ key = "Spacebar" →
  handleKeyDown dom key = Normal [Click (elem f); PreventDefault] ∧
  activeAfter dom [Click (elem f); PreventDefault] = elem f.
Proof.
  intros Hfocused Hkey.
  destruct (handleKeyDown_focused dom f key Hfocused) as (ci & _ & _ & _ & ->).
  split; [|by destruct Hfocused as (_ & _ & _ & ?)].
  destruct Hkey as [-> | [-> | ->]]; repeat (rewrite decide_False by done);
    by rewrite decide_True by first [by left | by right; left | by right; right].
Qed.

(** X5. A key without a case of its own does nothing while a node has the
    focus, and no key does anything in a tree without enabled nodes. *)
Theorem other_keys_and_empty_trees_do_nothing dom (key : string) :
  (∀ f, Focused dom f → key ∉ handledKeys → handleKeyDown dom key = Normal []) ∧
  (Forall Disabled (treeNodes dom) → handleKeyDown dom key = Normal []).
Proof.
  split.
  - intros f Hfocused Hkey.
    destruct (handleKeyDown_focused dom f key Hfocused) as (ci & _ & _ & _ & ->).
    unfold handledKeys in Hkey. rewrite !not_elem_of_cons in Hkey.
    destruct Hkey as (? & ? & ? & ? & ? & ? & ? & _).
    rewrite !decide_False by (done || by intros [|[|]]). apply focusAt_out. lia.
  - intros Hoff. unfold handleKeyDown, enabledNodes.
    by rewrite filter_off.
Qed.

End TreeOtherKeys.

(** ** Data with a cycle *)

Section Cycles.
Context {T : Type}.
Variable describe : T → NodeData T.
Variable getNode : GetNode T.
Hypothesis getNode_allocates : allocates describe getNode.
Implicit Types (e c x : T) (st : heap T * list nat).

Lemma reachesCycle_step e :
  TreeDom.ReachesCycle describe e →
  truthy (isExpanded (describe e)) = true ∧
  ∃ j c, children describe e !! j = Some c ∧ TreeDom.ReachesCycle describe c.
Proof.
  intros (p & x & q & Hp & Hq & Hloop). inversion Hp as [r|r j c p' x' Hexp Hj Hp']; subst.
  - inversion Hloop as [|r j c q' x' Hexp Hj Hloop']; subst; [done|].
    split; [done|]. exists j, c. split; [done|]. by exists q', x, (j :: q').
  - split; [done|]. exists j, c. split; [done|]. by exists p', x, q.
Qed.

Lemma forEach_no_throw {A} (f : A → heap T * list nat → completion (heap T * list nat))
    (xs : list A) st (err : exn) :
  (∀ a st', f a st' ≠ Throw err) → forEach xs f st ≠ Throw err.
Proof.
  intros Hf. revert st. induction xs as [|a xs IH]; intros st; simpl; [done|].
  destruct (f a st) as [st'|err'|] eqn:Ha; [apply IH| |done].
  intros [= ->]. by apply (Hf a st).
Qed.

(** With a [getNode] that builds its objects the pass never throws. *)
Lemma addSubNodes_no_throw fuel e d st (err : exn) :
  addSubNodes getNode fuel e d st ≠ Throw err.
Proof.
  revert e d st. induction fuel as [|fuel IH]; intros e d [h fl]; [done|].
  cbn [addSubNodes fst snd].
  destruct (getNode_allocates e h) as (l & _ & ->).
  rewrite lookup_insert_eq.
  destruct (truthy _); [|done]. destruct (subNodes _); [|done].
  apply forEach_no_throw. intros a st'. apply IH.
Qed.

Lemma forEach_out_of_fuel {A}
    (f : A → heap T * list nat → completion (heap T * list nat))
    (xs : list A) (j : nat) (x : A) st :
  (∀ y st' err, f y st' ≠ Throw err) → xs !! j = Some x →
  (∀ st', f x st' = OutOfFuel) → forEach xs f st = OutOfFuel.
Proof.
  intros Hno. revert j st. induction xs as [|y xs IH]; intros j st Hj Hx; [done|].
  simpl. destruct j as [|j]; simpl in Hj.
  - injection Hj as ->. by rewrite Hx.
  - destruct (f y st) as [st'|err|] eqn:Hy; [by eapply IH| |done].
    by destruct (Hno y st err).
Qed.

Lemma addSubNodes_of_a_cycle fuel e d st :
  TreeDom.ReachesCycle describe e → addSubNodes getNode fuel e d st = OutOfFuel.
Proof.
  revert e d st. induction fuel as [|fuel IH]; intros e d [h fl] Hcycle; [done|].
  destruct (reachesCycle_step e Hcycle) as (Hexp & j & c & Hj & Hc).
  cbn [addSubNodes fst snd].
  destruct (getNode_allocates e h) as (l & _ & ->).
  rewrite lookup_insert_eq. cbn [setDepth isExpanded subNodes]. rewrite Hexp.
  unfold children in Hj. destruct (subNodes (describe e)) as [subs|]; [|done].
  eapply forEach_out_of_fuel; [|done|].
  - intros y st' err. apply addSubNodes_no_throw.
  - intros st'. by apply IH.
Qed.

Lemma flatNodesList_of_a_cycle fuel data h :
  TreeDom.ShowsCycle describe data → flatNodesList getNode fuel data h = OutOfFuel.
Proof.
  intros (p & x & q & Hp & Hq & Hloop). destruct p as [|i p]; [done|].
  destruct Hp as (r & Hr & Hp). unfold flatNodesList.
  eapply forEach_out_of_fuel; [|done|].
  - intros y st' err. apply addSubNodes_no_throw.
  - intros st'. apply addSubNodes_of_a_cycle. by exists p, x, q.
Qed.

End Cycles.

(** X6. When the data shows a node below itself (a cycle of expanded nodes
    that the pass reaches) and [getNode] builds a new object on every call,
    the pass returns no list, however deep the recursion may go: it recurses
    without end. *)
Theorem flatNodesList_never_returns_on_a_cycle {T} (describe : T → NodeData T)
    (getNode : GetNode T) (fuel : nat) (data : list T) (h : heap T) :
  allocates describe getNode → TreeDom.ShowsCycle describe data →
  flatNodesList getNode fuel data h = OutOfFuel.
Proof. intros Halloc Hcycle. by apply (flatNodesList_of_a_cycle describe). Qed.

Lemma flatNodesList_never_returns_on_a_cycle_witness :
  flatNodesList (getNode_fresh TreeDom.loopDescribe) 50 [7] ∅ = OutOfFuel.
Proof.
  apply (flatNodesList_never_returns_on_a_cycle TreeDom.loopDescribe).
  - apply getNode_fresh_allocates.
  - exists [0], 7, [0]. split_and!.
    + exists 7. split; [done|constructor].
    + done.
    + econstructor; [done|done|constructor].
Defined.

(** ** [mapOptions] *)

Section MapOptions.
Context {T : Type} `{EqDecision T}.
Import ComboBox ComboView.
Implicit Types (s : State T) (props : Props T) (o : ExtendedSelectOption T)
  (l : list (ExtendedSelectOption T)).

Lemma mapOf_snoc l o :
  mapOf (l ++ [o]) = <[default "undefined" (xid o) := o]> (mapOf l).
Proof. unfold mapOf. by rewrite foldl_snoc. Qed.

(** The map holds the last option of each key. *)
Lemma mapOf_lookup_last l (i : nat) o (k : string) :
  l !! i = Some o → default "undefined" (xid o) = k →
  (∀ j o', i < j → l !! j = Some o' → default "undefined" (xid o') ≠ k) →
  mapOf l !! k = Some o.
Proof.
  revert i. induction l as [|o' l IH] using rev_ind; intros i Hi Hk Hlast; [done|].
  rewrite mapOf_snoc. destruct (decide (i = length l)) as [->|Hne].
  - rewrite list_lookup_middle in Hi by done. injection Hi as ->.
    rewrite Hk. apply lookup_insert_eq.
  - assert (i < length l).
    { apply lookup_lt_Some in Hi. rewrite length_app in Hi. simpl in Hi. lia. }
    rewrite lookup_app_l in Hi by done.
    rewrite lookup_insert_ne.
    + apply (IH i); [done..|]. intros j o'' Hj Ho''. apply (Hlast j); [done|].
      by apply lookup_app_l_Some.
    + apply (Hlast (length l)); [done|]. by rewrite list_lookup_middle.
Qed.

Lemma mapOf_lookup_None l (k : string) :
  (∀ o, o ∈ l → default "undefined" (xid o) ≠ k) → mapOf l !! k = None.
Proof.
  induction l as [|o l IH] using rev_ind; intros Hnone; [done|].
  rewrite mapOf_snoc, lookup_insert_ne.
  - apply IH. intros o' Ho'. apply Hnone. apply elem_of_app. by left.
  - apply Hnone. apply elem_of_app. right. apply list_elem_of_here.
Qed.

Lemma extend_lookup (c : string) (opts : list (SelectOption T)) (i : nat) o :
  imap (extend c) opts !! i = Some o ↔ ∃ option, opts !! i = Some option ∧ o = extend c i option.
Proof.
  rewrite list_lookup_imap. destruct (opts !! i) as [option|]; simpl.
  - split; [intros [= <-]; by exists option|]. by intros (? & [= <-] & ->).
  - split; [done|]. by intros (? & ? & _).
Qed.

(** X7. [mapOptions] keeps the options in their order, gives each its
    position as index, and fills the map by id: under an id the map holds the
    last option that carries it, and nothing under an id no option carries. *)
Theorem mapOptions_indexes_and_maps props s :
  let s' := mapOptions props s in
  length (extendedOriginalOptions s') = length (options props) ∧
  (∀ (i : nat) option, options props !! i = Some option →
     ∃ o, extendedOriginalOptions s' !! i = Some o ∧
          xlabel o = label option ∧ xvalue o = value option ∧
          xdisabled o = disabled option ∧ xindex o = Some i ∧
          xid o = Some (default (cid s +:+ "-option" +:+ pretty i) (id option))) ∧
  (∀ (i : nat) o (k : string),
     extendedOriginalOptions s' !! i = Some o → xid o = Some k →
     (∀ (j : nat) o', i < j → extendedOriginalOptions s' !! j = Some o' →
                      xid o' ≠ Some k) →
     optionsMap s' !! k = Some o) ∧
  (∀ k : string,
     (∀ o, o ∈ extendedOriginalOptions s' → xid o ≠ Some k) →
     optionsMap s' !! k = None).
Proof.
  simpl. split_and!.
  - apply length_imap.
  - intros i option Hi. exists (extend (cid s) i option).
    split; [|done]. apply extend_lookup. by exists option.
  - intros i o k Hi Hk Hlast. apply (mapOf_lookup_last _ i); [done|by rewrite Hk|].
    intros j o' Hj Ho'. specialize (Hlast j o' Hj Ho').
    apply extend_lookup in Ho' as (option & _ & ->). simpl in *. congruence.
  - intros k Hnone. apply mapOf_lookup_None. intros o Ho.
    specialize (Hnone o Ho).
    apply list_elem_of_lookup in Ho as (i & Ho).
    apply extend_lookup in Ho as (option & _ & ->). simpl in *. congruence.
Qed.

Lemma generated_id_inj (c : string) (i j : nat) :
  c +:+ "-option" +:+ pretty i = c +:+ "-option" +:+ pretty j → i = j.
Proof.
  intros Heq. apply (inj (String.app c)) in Heq.
  apply (inj (String.app "-option")) in Heq. by apply (inj pretty) in Heq.
Qed.

Lemma generated_id_nonempty (c : string) (i : nat) : c +:+ "-option" +:+ pretty i ≠ "".
Proof. destruct c; simpl; [done|done]. Qed.

(** X8. When no option brings an id of its own, every option gets the id
    [<id>-option<index>], these ids are distinct, and after [mapOptions] the
    map holds each option under its own, non-empty id. *)
Theorem generated_ids_resolve props s :
  (∀ option, option ∈ options props → id option = None) →
  let s' := mapOptions props s in
  ∀ (i : nat) o, extendedOriginalOptions s' !! i = Some o →
    xid o = Some (cid s +:+ "-option" +:+ pretty i) ∧
    (∀ (j : nat) o', extendedOriginalOptions s' !! j = Some o' → xid o' = xid o → j = i) ∧
    Resolvable s' o.
Proof.
  intros Hnoid s' i o Hi.
  assert (Hids : ∀ (j : nat) o', extendedOriginalOptions s' !! j = Some o' →
                   xid o' = Some (cid s +:+ "-option" +:+ pretty j)).
  { intros j o' Ho'. apply extend_lookup in Ho' as (option & Hopt & ->). simpl.
    by rewrite (Hnoid option) by by eapply list_elem_of_lookup_2. }
  assert (Hinj : ∀ (j : nat) o', extendedOriginalOptions s' !! j = Some o' →
                   xid o' = xid o → j = i).
  { intros j o' Ho' Heq. rewrite (Hids j o' Ho'), (Hids i o Hi) in Heq.
    injection Heq as Heq. by apply generated_id_inj in Heq. }
  split_and!; [by apply Hids|done|].
  exists (cid s +:+ "-option" +:+ pretty i).
  split_and!; [by apply Hids|apply generated_id_nonempty|].
  apply (mapOf_lookup_last _ i); [done|by rewrite (Hids i o Hi)|].
  intros j o' Hj Ho' Heq. assert (j = i); [|lia].
  apply (Hinj j o' Ho'). rewrite (Hids j o' Ho'), (Hids i o Hi). f_equal.
  rewrite (Hids j o' Ho') in Heq. done.
Qed.

End MapOptions.

(** ** Keys of the combo box *)

Section ComboKeys.
Context {T : Type} `{EqDecision T}.
Import ComboBox ComboView.
Implicit Types (s prev : State T) (props : Props T) (o : ExtendedSelectOption T).

Lemma findFrom_first {A} (p : A → nat → bool) start (xs : list A) (i : nat) x :
  xs !! i = Some x → p x (start + i) = true →
  (∀ (j : nat) y, j < i → xs !! j = Some y → p y (start + j) = false) →
  findFrom p start xs = Some x.
Proof.
  revert start i. induction xs as [|y xs IH]; intros start i Hi Hp Hfirst; [done|].
  destruct i as [|i]; simpl in *.
  - injection Hi as ->. rewrite Nat.add_0_r in Hp. by rewrite Hp.
  - rewrite <- (Nat.add_0_r start) at 1. rewrite (Hfirst 0 y) by (done || lia).
    apply (IH (S start) i); [done|by replace (S start + i) with (start + S i) by lia|].
    intros j z Hj Hz. replace (S start + j) with (start + S j) by lia.
    apply Hfirst; [lia|done].
Qed.

Lemma scanUp_first (filtered : list (ExtendedSelectOption T)) (n i : nat) o :
  filtered !! i = Some o → i < n → enabled o = true →
  (∀ (j : nat) o', filtered !! j = Some o' → i < j → j < n → enabled o' = false) →
  scanUp filtered n = Some o.
Proof.
  intros Hi Hlt Hen Hbetween. induction n as [|n IH]; [lia|]. simpl.
  destruct (decide (i = n)) as [->|Hne].
  - by rewrite Hi, Hen.
  - assert (Hrest : scanUp filtered n = Some o).
    { apply IH; [lia|]. intros j o' ? ? ?. apply (Hbetween j); [done|done|lia]. }
    destruct (filtered !! n) as [o'|] eqn:Hn; [|done].
    by rewrite (Hbetween n o') by (done || lia).
Qed.

(** X10. While the dropdown is open, ArrowDown focuses the first enabled
    option of the filtered list at a position beyond the stored index of the
    focused option, and ArrowUp the last enabled one at a position below it.
    The stored index is the index among all options, the positions are those
    of the filtered list: when the filtered list has no position beyond the
    stored index, ArrowDown leaves the focus where it is. *)
Theorem arrows_move_to_the_nearest_enabled_option s :
  isOpen s = true →
  (∀ (i : nat) o,
     filteredOptions s !! i = Some o → (storedIndex s < Z.of_nat i)%Z → enabled o = true →
     (∀ (j : nat) o', filteredOptions s !! j = Some o' →
        (storedIndex s < Z.of_nat j)%Z → j < i → enabled o' = false) →
     focusedIndex (applyAll s (onKeyDown s "ArrowDown")) = Some o) ∧
  (∀ (i : nat) o,
     filteredOptions s !! i = Some o → (Z.of_nat i < storedIndex s)%Z → enabled o = true →
     (∀ (j : nat) o', filteredOptions s !! j = Some o' →
        i < j → (Z.of_nat j < storedIndex s)%Z → enabled o' = false) →
     focusedIndex (applyAll s (onKeyDown s "ArrowUp")) = Some o) ∧
  ((Z.of_nat (length (filteredOptions s)) ≤ storedIndex s + 1)%Z →
   focusedIndex (applyAll s (onKeyDown s "ArrowDown")) = focusedIndex s).
Proof.
  intros Hopen. unfold onKeyDown. rewrite Hopen. split_and!.
  - intros i o Hi Hgt Hen Hfirst. rewrite decide_True by done. unfold JS.find.
    rewrite (findFrom_first _ 0 _ i o); [done|done| |].
    + simpl. rewrite Hen, andb_true_r. apply bool_decide_eq_true. lia.
    + intros j y Hj Hy. simpl.
      destruct (decide (storedIndex s < Z.of_nat j)%Z).
      * rewrite (Hfirst j y) by done. apply andb_false_r.
      * rewrite bool_decide_eq_false_2 by lia. done.
  - intros i o Hi Hlt Hen Hbetween. rewrite decide_False, decide_True by done.
    unfold storedIndex in *.
    destruct (focusedIndex s) as [f|]; simpl in *; [|lia].
    destruct (xindex f) as [n|]; simpl in *; [|lia].
    destruct n as [|n]; [lia|].
    rewrite (scanUp_first _ (S n) i o); [done|done|lia|done|].
    intros j o' ? ? ?. apply (Hbetween j); [done|done|lia].
  - intros Hshort. rewrite decide_True by done. unfold JS.find.
    rewrite findFrom_None; [done|]. intros i x Hi. simpl.
    apply lookup_lt_Some in Hi. rewrite bool_decide_eq_false_2 by lia. done.
Qed.

Local Set Warnings "-clear-no-such-hyp".

(** X11. A key changes the selection and calls [onChange] only as Enter,
    while the dropdown is open and an option is focused, and then with the id
    and the value of that option; no key changes the input text or the
    filtered list. [preventDefault] and [stopPropagation] are called together:
    for ArrowDown, Enter and Escape, and for ArrowUp unless the dropdown is
    open with an option of index 0 focused; never for Tab or another key. *)
Theorem keys_select_only_by_enter s (key : string) :
  (∀ i, SetSelectedValueId i ∈ onKeyDown s key →
        key = "Enter" ∧ isOpen s = true ∧ ∃ f, focusedIndex s = Some f ∧ i = xid f) ∧
  (∀ v, CallOnChange v ∈ onKeyDown s key →
        key = "Enter" ∧ isOpen s = true ∧ userOnChange s = true ∧
        ∃ f, focusedIndex s = Some f ∧ v = xvalue f) ∧
  (∀ c, c ∈ onKeyDown s key →
        (∀ v, c ≠ SetInputValue v) ∧ (∀ l, c ≠ SetFilteredOptions l) ∧
        (∀ l selected, c ≠ RefocusIn l selected)) ∧
  (PreventDefault ∈ onKeyDown s key ↔
     key ∈ ["ArrowDown"; "Enter"; "Escape"] ∨
     (key = "ArrowUp" ∧
      ¬ (isOpen s = true ∧ ∃ f, focusedIndex s = Some f ∧ xindex f = Some 0))) ∧
  (StopPropagation ∈ onKeyDown s key ↔ PreventDefault ∈ onKeyDown s key).
Proof.
  unfold onKeyDown, callOnChange.
  repeat case_decide; subst; repeat case_match; subst; split_and!;
    try (intros; rewrite ?elem_of_app, ?elem_of_cons, ?elem_of_nil in *;
         intuition (subst; try discriminate; try congruence; eauto 6); fail).
  all: intros; set_solver.
Qed.

Ltac decide_key :=
  repeat first
    [ rewrite decide_True by first [done | by left | by right]
    | rewrite decide_False by first [done | by intros [|]] ].

(** X12. Escape and Tab close the dropdown, Enter toggles it, ArrowUp leaves
    it as it is, and every other key opens it or leaves it open. *)
Theorem keys_open_and_close s (key : string) :
  isOpen (applyAll s (onKeyDown s key)) =
    if decide (key = "Escape" ∨ key = "Tab") then false
    else if decide (key = "Enter") then negb (isOpen s)
    else if decide (key = "ArrowUp") then isOpen s
    else true.
Proof.
  unfold onKeyDown, callOnChange.
  destruct (decide (key = "ArrowDown")) as [->|HneArrowDown].
  { decide_key. destruct (isOpen s) eqn:Hopen; [|done]. by destruct (find _ _). }
  destruct (decide (key = "ArrowUp")) as [->|HneArrowUp].
  { decide_key.
    destruct (isOpen s) eqn:Hopen, (focusedIndex s) as [f|]; try done.
    destruct (xindex f) as [[|k]|]; try done. by destruct (scanUp _ _). }
  destruct (decide (key = "Enter")) as [->|HneEnter].
  { decide_key.
    destruct (isOpen s) eqn:Hopen, (focusedIndex s), (userOnChange s);
      simpl; by rewrite ?Hopen. }
  destruct (decide (key = "Escape")) as [->|HneEscape]; [by decide_key|].
  destruct (decide (key = "Tab")) as [->|HneTab]; [by decide_key|].
  decide_key. by destruct (isOpen s) eqn:Hopen.
Qed.

(** C7. The arrow keys compare the positions of the filtered list with the
    index the focused option has among all options. While the list is
    filtered, with the focused option at a position below its index, ArrowUp
    takes the last enabled option at a position below that index, which can
    lie after the focused option: the focus moves down. And ArrowDown leaves
    the focus where it is when the list has no position beyond that index,
    although an enabled option follows the focused one. *)
Theorem arrow_up_moves_the_focus_down_in_a_filtered_list s (p n i : nat) f o :
  isOpen s = true → focusedIndex s = Some f → xindex f = Some n →
  filteredOptions s !! p = Some f →
  filteredOptions s !! i = Some o → p < i → i < n → enabled o = true →
  (∀ (j : nat) o', filteredOptions s !! j = Some o' → i < j → j < n → enabled o' = false) →
  focusedIndex (applyAll s (onKeyDown s "ArrowUp")) = Some o ∧
  (length (filteredOptions s) ≤ S n →
   focusedIndex (applyAll s (onKeyDown s "ArrowDown")) = Some f).
Proof.
  intros Hopen Hfocused Hindex Hp Hi Hpi Hin Hen Hbetween.
  unfold onKeyDown. rewrite Hopen. split.
  - rewrite decide_False, decide_True by done. rewrite Hfocused, Hindex.
    destruct n as [|n]; [lia|].
    by rewrite (scanUp_first _ (S n) i o).
  - intros Hshort. rewrite decide_True by done. unfold JS.find.
    rewrite findFrom_None; [done|]. intros j x Hj. simpl.
    apply lookup_lt_Some in Hj. unfold storedIndex. rewrite Hfocused. simpl.
    rewrite Hindex. rewrite bool_decide_eq_false_2 by lia. done.
Qed.

End ComboKeys.

(** ** Mounting the combo box *)

Section ComboMount.
Context {T : Type} `{EqDecision T}.
Import ComboBox ComboView.
Implicit Types (s prev : State T) (props : Props T) (o : ExtendedSelectOption T).

(** The effects of a render while the dropdown was and stays closed. *)
Lemma effectsPass_closed props prev s :
  isOpen prev = false → isOpen s = false →
  effectsPass props prev s =
  applyAll s
    ((if bool_decide (extendedOriginalOptions prev = extendedOriginalOptions s)
      then [] else resetFilterEffect s ++ syncValueEffect props s) ++
     (if bool_decide (selectedValueId prev = selectedValueId s)
      then [] else selectedEffect s)).
Proof.
  intros Hprev Hs. unfold effectsPass. rewrite filterEffect_closed by done.
  rewrite Hprev. cbn [andb].
  assert (Hif : ∀ (b : bool) (x : list (Cmd T)), (if b then x else x) = x) by by intros [].
  rewrite Hif.
  destruct (bool_decide (extendedOriginalOptions prev = _)),
    (bool_decide (selectedValueId prev = _)); cbn [negb];
    by rewrite ?app_nil_r, ?app_nil_l, <- ?app_assoc.
Qed.

(** X9. Once mounted (a first render that completes, and at least two more
    renders), the component holds what [mapOptions] makes of the options, with the dropdown
    closed and the whole list as filtered list; the selected id is the id of
    the first option with the [value] property's value; the focused option is
    the selected one, and the input text is its label, or empty without one.
    So a [value] that is the value of an option whose id is not empty and is
    not carried by a later option shows the label of the first such option. *)
Theorem mount_settles props (c : string) (passes : nat) :
  let s := mount (2 + passes) c props in
  cid s = c ∧ Mapped props s ∧ userOnChange s = onChange props ∧
  isOpen s = false ∧
  filteredOptions s = extendedOriginalOptions s ∧
  selectedValueId s = valueOption props s ≫= xid ∧
  focusedIndex s = selectedOption s ∧
  inputValue s = default "" (xlabel <$> selectedOption s) ∧
  (∀ (v : T) (i : nat) option (k : string),
     value_prop props = Some v → options props !! i = Some option → value option = v →
     (∀ (j : nat) option', j < i → options props !! j = Some option' → value option' ≠ v) →
     xid (extend c i option) = Some k → k ≠ "" →
     (∀ (j : nat) option', i < j → options props !! j = Some option' →
        xid (extend c j option') ≠ Some k) →
     selectedValueId s = Some k ∧ inputValue s = label option ∧
     focusedIndex s = Some (extend c i option)).
Proof.
  intros s.
  assert (Hmain :
    cid s = c ∧ Mapped props s ∧ userOnChange s = onChange props ∧
    isOpen s = false ∧
    filteredOptions s = extendedOriginalOptions s ∧
    selectedValueId s = valueOption props s ≫= xid ∧
    focusedIndex s = selectedOption s ∧
    inputValue s = default "" (xlabel <$> selectedOption s)); last first.
  { destruct Hmain as (Hcid & Hmapped & Hcb & Hclosed & Hfiltered & Hsel & Hfoc & Hin).
    split_and!; [done..|].
    intros v i option k Hv Hi Hvalue Hfirst Hk Hne Hlast.
    destruct Hmapped as (Hext & Hmap & _). rewrite Hcid in Hext.
    assert (Hat : extendedOriginalOptions s !! i = Some (extend c i option)).
    { rewrite Hext. apply extend_lookup. by exists option. }
    assert (Hfound : valueOption props s = Some (extend c i option)).
    { apply (findFrom_first _ 0 _ i); [done| |].
      - apply bool_decide_eq_true. simpl. by rewrite Hvalue, Hv.
      - intros j y Hj Hy. apply bool_decide_eq_false. rewrite Hext in Hy.
        apply extend_lookup in Hy as (option' & Hoption' & ->). simpl.
        rewrite Hv. intros [= Heq]. by apply (Hfirst j option'). }
    assert (Hid : selectedValueId s = Some k) by by rewrite Hsel, Hfound.
    assert (Hselected : selectedOption s = Some (extend c i option)).
    { apply (selectedOption_found s k); [done..|]. rewrite Hmap.
      apply (mapOf_lookup_last _ i); [done|by rewrite Hk|].
      intros j o' Hj Ho'. rewrite Hext in Ho'.
      apply extend_lookup in Ho' as (option' & Hoption' & ->).
      intros Heq. apply (Hlast j option' Hj Hoption'). simpl in *. by rewrite Heq. }
    by rewrite Hfoc, Hin, Hselected. }
  unfold s, mount.
  set (s0 := initialState c props). set (s1 := mapOptions props s0).
  destruct (decide (options props = [])) as [Hnil|Hne].
  { assert (Hsame : s1 = s0) by (unfold s1, mapOptions; by rewrite Hnil).
    rewrite settle_quiet; [|by rewrite Hsame|by right].
    rewrite Hsame. unfold Mapped, valueOption. simpl. by rewrite Hnil. }
  assert (Hext : extendedOriginalOptions s0 ≠ extendedOriginalOptions s1).
  { simpl. intros Heq. apply (f_equal length) in Heq. rewrite length_imap in Heq.
    by destruct (options props). }
  cbn [settle Nat.add].
  rewrite (effectsPass_closed props s0 s1) by done.
  rewrite (bool_decide_eq_false_2 _ Hext).
  rewrite (bool_decide_eq_true_2 (selectedValueId s0 = selectedValueId s1)) by done.
  set (s2 := applyAll s1 _).
  rewrite (effectsPass_closed props s1 s2) by done.
  rewrite (bool_decide_eq_true_2 (extendedOriginalOptions s1 = extendedOriginalOptions s2))
    by done.
  set (s3 := applyAll s2 _).
  assert (Hs3 : cid s3 = c ∧ extendedOriginalOptions s3 = extendedOriginalOptions s1 ∧
                optionsMap s3 = optionsMap s1 ∧ memoizedItems s3 = memoizedItems s1 ∧
                userOnChange s3 = onChange props ∧ isOpen s3 = false ∧
                filteredOptions s3 = extendedOriginalOptions s1 ∧
                selectedValueId s3 = selectedValueId s2 ∧
                focusedIndex s3 = selectedOption s2 ∧
                inputValue s3 = default "" (xlabel <$> selectedOption s2)).
  { unfold s3. case_bool_decide as Hsel.
    - assert (Hnone : selectedOption s2 = None)
        by (unfold selectedOption; by rewrite <- Hsel).
      by rewrite Hnone.
    - unfold selectedEffect. by destruct (selectedOption s2). }
  destruct Hs3 as (Hcid & Hext3 & Hmap3 & Hmemo3 & Hcb3 & Hopen3 & Hfil3 & Hsel3 & Hfoc3 & Hin3).
  rewrite settle_quiet; [|by split_and!|by right].
  assert (Hselected : selectedOption s3 = selectedOption s2).
  { unfold selectedOption. by rewrite Hsel3, Hmap3. }
  rewrite Hselected. unfold Mapped, valueOption.
  rewrite Hcid, Hext3, Hmap3, Hmemo3, Hsel3. by split_and!.
Qed.
End ComboMount.

(** ** Opening the dropdown *)

Section ComboOpen.
Context {T : Type} `{EqDecision T}.
Import ComboBox ComboView.
Implicit Types (s prev : State T) (props : Props T) (o : ExtendedSelectOption T).

(** X20. Focusing the input of the closed combo box opens the dropdown and
    leaves the input text and the selection alone; the list shown is the
    whole list when the input is empty or holds the label of the selected
    option, and otherwise (default filter) the options that match the text
    that is in the input. *)
Theorem focusing_opens_and_filters props s (passes : nat) :
  isOpen s = false → filterFunction props = None →
  let s' := after (S passes) props s onFocus in
  isOpen s' = true ∧ inputValue s' = inputValue s ∧
  selectedValueId s' = selectedValueId s ∧
  filteredOptions s' =
    (if negb (nonEmpty (inputValue s))
        || bool_decide (xlabel <$> selectedOption s = Some (inputValue s))
     then extendedOriginalOptions s
     else List.filter (matches (inputValue s)) (extendedOriginalOptions s)).
Proof.
  intros Hclosed Hnone s'. set (s0 := applyAll s onFocus).
  assert (Hpass : effectsPass props s s0 = applyAll s0 (filterEffect props s0)).
  { unfold effectsPass. simpl.
    rewrite !(bool_decide_eq_true_2 (_ = _)) by done.
    rewrite (bool_decide_eq_false_2 (isOpen s = true)) by by rewrite Hclosed.
    rewrite Hclosed. simpl. by rewrite app_nil_r. }
  assert (Hs' : s' = applyAll s0 (filterEffect props s0)).
  { unfold s', after. fold s0. rewrite settle_once; [done| |]; rewrite Hpass.
    - destruct (filterEffect_frame props s0 s0) as (? & ? & ? & _). by split_and!.
    - left. by destruct (filterEffect_frame props s0 s0) as (_ & _ & _ & -> & _). }
  rewrite Hs'.
  destruct (filterEffect_frame props s0 s0) as (_ & -> & -> & -> & _).
  split_and!; [done..|].
  by rewrite (filterEffect_filtered props s0) by done.
Qed.

End ComboOpen.

(** ** Closing the dropdown *)

Section ComboClose.
Context {T : Type} `{EqDecision T}.
Import ComboBox ComboView.
Implicit Types (s prev : State T) (props : Props T) (o : ExtendedSelectOption T).

(** The render after the dropdown closed with everything else unchanged:
    only [onHide] does something. *)
Lemma effectsPass_hide props s s0 :
  isOpen s = true → isOpen s0 = false →
  extendedOriginalOptions s0 = extendedOriginalOptions s →
  selectedValueId s0 = selectedValueId s →
  inputValue s0 = inputValue s →
  effectsPass props s s0 = applyAll s0 (onHide s0).
Proof.
  intros Hopen Hclosed Hext Hsel Hin. unfold effectsPass.
  rewrite filterEffect_closed by done. rewrite Hext, Hsel, Hin, Hopen, Hclosed.
  rewrite !bool_decide_eq_true_2 by done. simpl. done.
Qed.

(** X13. Escape and Tab while the dropdown is open close it and leave the
    selection alone; the popover's [onHide] then puts the focus back on the
    selected option (on none without a selection) and the label of the
    selected option back into the input (the typed text stays without a
    selection). The filtered list is not reset. *)
Theorem escape_and_tab_restore_the_selection props s (key : string) (passes : nat) :
  isOpen s = true → key = "Escape" ∨ key = "Tab" →
  let s' := after (S passes) props s (onKeyDown s key) in
  isOpen s' = false ∧
  selectedValueId s' = selectedValueId s ∧
  focusedIndex s' = selectedOption s ∧
  inputValue s' = default (inputValue s) (xlabel <$> selectedOption s) ∧
  filteredOptions s' = filteredOptions s.
Proof.
  intros Hopen Hkey s'.
  set (s0 := applyAll s [SetIsOpen false]).
  assert (Hs0 : ∃ cs, onKeyDown s key = SetIsOpen false :: cs ∧ ∀ st, applyAll st cs = st).
  { destruct Hkey as [-> | ->]; unfold onKeyDown.
    - rewrite !decide_False, decide_True by done. by eexists.
    - rewrite !decide_False, decide_True by done. by eexists. }
  destruct Hs0 as (cs & Hcmds & Hcs).
  assert (Hafter : applyAll s (onKeyDown s key) = s0).
  { rewrite Hcmds. change (applyAll s (SetIsOpen false :: cs)) with (applyAll s0 cs).
    apply Hcs. }
  assert (Hpass : effectsPass props s s0 = applyAll s0 (onHide s0))
    by by apply effectsPass_hide.
  assert (Hs' : s' = applyAll s0 (onHide s0)).
  { unfold s', after. rewrite Hafter, settle_once; [done| |]; rewrite Hpass.
    - unfold onHide. by destruct (selectedOption s0).
    - right. unfold onHide. by destruct (selectedOption s0). }
  rewrite Hs'. unfold onHide. change (selectedOption s0) with (selectedOption s).
  by destruct (selectedOption s).
Qed.

End ComboClose.

(** ** Typing and the focused option *)

Section ComboTyping.
Context {T : Type} `{EqDecision T}.
Import ComboBox ComboView.
Implicit Types (s prev : State T) (props : Props T) (o : ExtendedSelectOption T).

(** Typing while the dropdown is open: the filter effect runs once. *)
Lemma after_onInput props s (text : string) (passes : nat) :
  isOpen s = true → text ≠ inputValue s →
  after (S passes) props s (onInput text) =
  applyAll (applyAll s (onInput text)) (filterEffect props (applyAll s (onInput text))).
Proof.
  intros Hopen Hchanged. set (s0 := applyAll s (onInput text)).
  assert (Hpass : effectsPass props s s0 = applyAll s0 (filterEffect props s0)).
  { unfold effectsPass. simpl.
    rewrite !(bool_decide_eq_true_2 (_ = _)) by done.
    rewrite (bool_decide_eq_false_2 (inputValue s = text)) by done.
    rewrite Hopen. simpl. by rewrite app_nil_r. }
  unfold after. fold s0. rewrite settle_once; [done| |]; rewrite Hpass.
  - destruct (filterEffect_frame props s0 s0) as (? & ? & ? & _). by split_and!.
  - left. by destruct (filterEffect_frame props s0 s0) as (_ & _ & _ & -> & _).
Qed.

(** What the filter effect makes of the focused option. *)
Lemma filterEffect_focused props s :
  isOpen s = true →
  let s' := applyAll s (filterEffect props s) in
  (focusedIndex s' = focusedIndex s ∧ filteredOptions s' = extendedOriginalOptions s) ∨
  focusedIndex s' = refocus (filteredOptions s') (selectedOption s) (focusedIndex s).
Proof.
  intros Hopen. unfold filterEffect. rewrite Hopen. simpl.
  destruct (_ || _); [by left|by right].
Qed.

Lemma NoDup_fmap_eq {A B} (g : A → B) (l : list A) (x y : A) :
  NoDup (g <$> l) → x ∈ l → y ∈ l → g x = g y → x = y.
Proof.
  intros Hnd (i & Hi)%list_elem_of_lookup (j & Hj)%list_elem_of_lookup Heq.
  assert (i = j) as ->; [|congruence].
  apply (NoDup_lookup _ i j (g x) Hnd); rewrite list_lookup_fmap.
  - by rewrite Hi.
  - by rewrite Hj, Heq.
Qed.

Lemma existsb_elem {A} (p : A → bool) (l : list A) :
  existsb p l = true ↔ ∃ x, x ∈ l ∧ p x = true.
Proof.
  rewrite existsb_exists. split; intros (x & Hx & Hp); exists x;
    (split; [by apply list_elem_of_In|done]).
Qed.

(** X14. With ids and values that are pairwise distinct, and the focused and
    the selected option among the options, typing into the open combo box
    (default filter) leaves the focused option, if there is one afterwards,
    in the filtered list: it is the option focused before, or else the
    selected option; and an option focused before that is still in the list
    stays focused. *)
Theorem typing_keeps_the_focus_in_the_list props s (text : string) (passes : nat) :
  isOpen s = true → filterFunction props = None → text ≠ inputValue s →
  NoDup (xid <$> extendedOriginalOptions s) →
  NoDup (xvalue <$> extendedOriginalOptions s) →
  (∀ f, focusedIndex s = Some f → f ∈ extendedOriginalOptions s) →
  (∀ o, selectedOption s = Some o → o ∈ extendedOriginalOptions s) →
  let s' := after (S passes) props s (onInput text) in
  (∀ f, focusedIndex s' = Some f →
        f ∈ filteredOptions s' ∧ (focusedIndex s = Some f ∨ selectedOption s = Some f)) ∧
  (∀ f, focusedIndex s = Some f → f ∈ filteredOptions s' → focusedIndex s' = Some f).
Proof.
  intros Hopen Hnone Hchanged Hids Hvalues Hfocused Hselected s'.
  unfold s'. rewrite after_onInput by done.
  set (s0 := applyAll s (onInput text)).
  assert (Hsub : ∀ o, o ∈ filteredOptions (applyAll s0 (filterEffect props s0)) →
                      o ∈ extendedOriginalOptions s).
  { intros o. rewrite (filterEffect_filtered props s0) by done.
    destruct (_ || _); [by intros ?|]. intros Ho.
    rewrite list_elem_of_In, filter_In, <- list_elem_of_In in Ho. by destruct Ho. }
  destruct (filterEffect_focused props s0 Hopen) as [[Hsame Hall]|Hre].
  { rewrite Hsame, Hall. split.
    - intros f Hf. split; [by apply Hfocused|by left].
    - done. }
  rewrite Hre. change (selectedOption s0) with (selectedOption s).
  change (focusedIndex s0) with (focusedIndex s).
  set (filtered := filteredOptions _) in *. unfold refocus. split.
  - intros f. destruct (existsb _ filtered) eqn:Hkept.
    + intros Hf. split; [|by left].
      apply existsb_elem in Hkept as (el & Hel & Hid%bool_decide_eq_true).
      rewrite Hf in Hid. simpl in Hid.
      by rewrite <- (NoDup_fmap_eq xid _ el f Hids (Hsub el Hel) (Hfocused f Hf) Hid).
    + destruct (existsb (λ el, bool_decide (Some (xvalue el) = _)) filtered) eqn:Hsel;
        [|done].
      intros Hf. split; [|by right].
      apply existsb_elem in Hsel as (el & Hel & Hv%bool_decide_eq_true).
      rewrite Hf in Hv. simpl in Hv. injection Hv as Hv.
      by rewrite <- (NoDup_fmap_eq xvalue _ el f Hvalues (Hsub el Hel) (Hselected f Hf) Hv).
  - intros f Hf Hin. rewrite Hf.
    assert (Hkept : existsb (λ el, bool_decide (xid el = Some f ≫= xid)) filtered = true).
    { apply existsb_elem. exists f. split; [done|]. by apply bool_decide_eq_true. }
    by rewrite Hkept.
Qed.

Lemma find_value_first (extended : list (ExtendedSelectOption T)) (v : T) e :
  find (λ e _, bool_decide (xvalue e = v)) extended = Some e →
  ∃ j : nat, extended !! j = Some e ∧ xvalue e = v ∧
    ∀ (j' : nat) e', j' < j → extended !! j' = Some e' → xvalue e' ≠ v.
Proof.
  unfold find. generalize 0.
  induction extended as [|e0 extended IH]; intros start; simpl; [done|].
  case_bool_decide as Hv.
  - intros [= ->]. exists 0. split_and!; [done..|]. intros j' e' ?. lia.
  - intros (j & Hj & Hvj & Hfirst)%IH. exists (S j). split_and!; [done..|].
    intros [|j'] e' Hlt; simpl; [by intros [= <-]|].
    apply Hfirst. lia.
Qed.

Lemma find_value_none (extended : list (ExtendedSelectOption T)) (v : T) :
  find (λ e _, bool_decide (xvalue e = v)) extended = None →
  ∀ e, e ∈ extended → xvalue e ≠ v.
Proof.
  unfold find. generalize 0.
  induction extended as [|e0 extended IH]; intros start; simpl.
  - by intros _ e ?%elem_of_nil.
  - case_bool_decide as Hv; [done|]. intros Hnone e [->|He]%elem_of_cons; [done|].
    by eapply IH.
Qed.

(** X15. With a [filterFunction], the filtered list has one entry for every
    element the function returns, in its order. An element whose value is the
    value of an option is shown with the label, id and index of the first
    such option, whatever label and id it brings; an element with a value of
    no option keeps its own fields and has no index. *)
Theorem custom_filter_results_take_the_original_fields props s
    (f : list (ExtendedSelectOption T) → string → list (SelectOption T))
    (text : string) (passes : nat) :
  isOpen s = true → filterFunction props = Some f → text ≠ inputValue s →
  text ≠ "" → xlabel <$> selectedOption s ≠ Some text →
  let s' := after (S passes) props s (onInput text) in
  let extended := extendedOriginalOptions s in
  length (filteredOptions s') = length (f extended text) ∧
  ∀ (i : nat) el, f extended text !! i = Some el →
    ∃ m, filteredOptions s' !! i = Some m ∧
      ((∃ (j : nat) e, extended !! j = Some e ∧ xvalue e = value el ∧
          (∀ (j' : nat) e', j' < j → extended !! j' = Some e' → xvalue e' ≠ value el) ∧
          xlabel m = xlabel e ∧ xvalue m = xvalue e ∧ xid m = xid e ∧
          xindex m = xindex e) ∨
       ((∀ e, e ∈ extended → xvalue e ≠ value el) ∧
        xlabel m = label el ∧ xvalue m = value el ∧ xid m = id el ∧
        xdisabled m = disabled el ∧ xindex m = None)).
Proof.
  intros Hopen Hf Hchanged Htext Hlabel s' extended.
  assert (Hfiltered : filteredOptions s' = merge extended <$> f extended text).
  { unfold s'. rewrite after_onInput by done. unfold filterEffect. simpl.
    rewrite Hopen, Hf. simpl.
    change (selectedOption (applyAll s (onInput text))) with (selectedOption s).
    rewrite (bool_decide_eq_false_2 _ Hlabel).
    destruct (nonEmpty text) eqn:Hne; [done|]. by apply nonEmpty_false in Hne. }
  rewrite Hfiltered. split; [apply length_fmap|].
  intros i el Hel. exists (merge extended el).
  split; [by rewrite list_lookup_fmap, Hel|].
  unfold merge. destruct (find _ extended) as [e|] eqn:Hfind.
  - left. apply find_value_first in Hfind as (j & Hj & Hv & Hfirst).
    by exists j, e.
  - right. split; [|done]. by apply find_value_none.
Qed.

End ComboTyping.

(** ** The items of the menu *)

Section ComboMenu.
Context {T : Type} `{EqDecision T}.
Import ComboBox ComboView.
Implicit Types (s prev : State T) (props : Props T) (o : ExtendedSelectOption T)
  (l : list (ExtendedSelectOption T)).

Lemma mapOf_lookup_Some l (k : string) o :
  mapOf l !! k = Some o → o ∈ l ∧ default "undefined" (xid o) = k.
Proof.
  induction l as [|o' l IH] using rev_ind; [done|].
  rewrite mapOf_snoc. destruct (decide (default "undefined" (xid o') = k)) as [<-|Hne].
  - rewrite lookup_insert_eq. intros [= ->]. split; [|done].
    apply elem_of_app. right. apply list_elem_of_here.
  - rewrite lookup_insert_ne by done. intros [Hin Hk]%IH. split; [|done].
    apply elem_of_app. by left.
Qed.

Lemma mapM_lookup {A B} (f : nat → completion B) (g : A → B) (xs : list A) (start : nat) :
  (∀ (i : nat) x, xs !! i = Some x → f (start + i) = Normal (g x)) →
  mapM f (seq start (length xs)) = Normal (g <$> xs).
Proof.
  revert start. induction xs as [|x xs IH]; intros start Hf; [done|].
  simpl. rewrite <- (Nat.add_0_r start) at 1. rewrite (Hf 0 x eq_refl).
  rewrite (IH (S start)); [done|]. intros i y Hi.
  replace (S start + i) with (start + S i) by lia. by apply Hf.
Qed.

(** What the map and the memoized elements hold for an id of the map, in a
    state [mapOptions] made. *)
Lemma mapped_original props s (k : string) o' :
  Mapped props s → optionsMap s !! k = Some o' →
  xid o' = Some k ∧
  ∃ j : nat, xindex o' = Some j ∧
    memoizedItems s !! j = Some (OptionElement (itemRenderer props) (Some k) false false).
Proof.
  intros (Hext & Hmap & Hmemo) Ho'. rewrite Hmap in Ho'.
  apply mapOf_lookup_Some in Ho' as [Hin Hk].
  apply list_elem_of_lookup in Hin as (j & Hj).
  pose proof Hj as Hj'. rewrite Hext in Hj'.
  apply extend_lookup in Hj' as (option & _ & Heq).
  assert (Hid : xid o' = Some k).
  { rewrite Heq in Hk |- *. simpl in *. by rewrite Hk. }
  split; [done|]. exists j. split; [by rewrite Heq|].
  by rewrite Hmemo, list_lookup_fmap, Hj, <- Hid.
Qed.

(** X16. In a state [mapOptions] made, with a filtered list that is not empty
    and holds only options whose id is an id of the map, [menuItems] throws
    nothing and is one option element for every filtered option, in order,
    with the option's id, marked selected when its id is the selected id and
    focused when its id is the id of the focused option. *)
Theorem menuItems_lists_the_filtered_options props s :
  Mapped props s → filteredOptions s ≠ [] →
  (∀ o, o ∈ filteredOptions s → ∃ k : string, xid o = Some k ∧ is_Some (optionsMap s !! k)) →
  menuItems props s =
    Normal ((λ o, Some (OptionElement (itemRenderer props) (xid o)
                          (bool_decide (selectedValueId s = xid o))
                          (bool_decide (focusedIndex s ≫= xid = xid o)))) <$>
            filteredOptions s).
Proof.
  intros Hmapped Hne Hknown. unfold menuItems.
  rewrite decide_False by by destruct (filteredOptions s).
  apply mapM_lookup. intros i o Hi. simpl. unfold getSingleMenuItem. rewrite Hi.
  destruct (Hknown o) as (k & Hk & o' & Ho'); [by eapply list_elem_of_lookup_2|].
  destruct (mapped_original props s k o' Hmapped Ho') as (_ & j & Hj & Hmemo).
  rewrite Hk. simpl. rewrite Ho'. simpl. rewrite Hj. simpl. rewrite Hmemo.
  destruct (_ || _) eqn:Hflags.
  - by destruct (itemRenderer props).
  - apply orb_false_iff in Hflags as [-> ->]. done.
Qed.


Lemma string_app_nil_r (x : string) : x +:+ "" = x.
Proof.
  induction x as [|c x IH]; [done|].
  change (String c x +:+ "") with (String c (x +:+ "")). by rewrite IH.
Qed.

(** X18. With [enableVirtualization] the menu inside [VirtualComboboxMenu]
    gets the id [<id>-list-list] (the component appends [-list] to the id
    [<id>-list] it is given), which is not the [<id>-list] the input names in
    [aria-controls] while the dropdown is open. *)
Theorem virtualized_list_id_differs props s :
  default false (enableVirtualization props) = true → isOpen s = true →
  inputProps props !! "aria-controls" = None →
  attribute (inputElementProps props s) "aria-controls" = Some (PStr (cid s +:+ "-list")) ∧
  ∃ listId, dropdownContent props s =
              VirtualMenu listId (length (filteredOptions s)) (focusedIndex s ≫= xindex) ∧
            listId ≠ cid s +:+ "-list".
Proof.
  intros Hvirtual Hopen Hcontrols. split.
  - unfold attribute, inputElementProps, spreadOver.
    rewrite lookup_insert_ne, lookup_union_r by done.
    rewrite !lookup_insert_ne, lookup_insert_eq by done. by rewrite Hopen.
  - unfold dropdownContent. rewrite Hvirtual. eexists. split; [done|].
    intros Heq. rewrite <- (string_app_nil_r (cid s +:+ "-list")) in Heq at 2.
    by apply (inj (String.app _)) in Heq.
Qed.

(** X19. Every property of [inputProps] but [onChange] reaches the input as
    given, in place of the component's own ([value], [onKeyDown], [onFocus],
    [role], ...); [onChange] is always the component's [onInput]. *)
Theorem inputProps_override_all_but_onChange props s :
  inputElementProps props s !! "onChange" = Some (PHandler "onInput") ∧
  (∀ (k : string) v, k ≠ "onChange" → inputProps props !! k = Some v →
                     inputElementProps props s !! k = Some v) ∧
  (inputProps props !! "value" = None →
   inputElementProps props s !! "value" = Some (PStr (inputValue s))).
Proof.
  unfold inputElementProps, spreadOver. split_and!.
  - apply lookup_insert_eq.
  - intros k v Hk Hv. rewrite lookup_insert_ne by done. by apply lookup_union_Some_l.
  - intros Hv. rewrite lookup_insert_ne, lookup_union_r by done.
    by rewrite !lookup_insert_ne, lookup_insert_eq by done.
Qed.

End ComboMenu.

(** ** The view after a click or Enter *)

Section ComboSelect.
Context {T : Type} `{EqDecision T}.
Import ComboBox ComboView.
Implicit Types (s prev : State T) (props : Props T) (o : ExtendedSelectOption T).







End ComboSelect.

(** ** Sequences of keys in the tree *)

Section TreeFocus.
Import TreeDom.
Implicit Types (n f p : NodeElement) (dom : Dom).

Lemma focusAt_total nodes done (i : Z) :
  focusAt nodes done i = Normal done ∨
  ∃ n, n ∈ nodes ∧ focusAt nodes done i = Normal (done ++ [Focus (elem n); PreventDefault]).
Proof.
  unfold focusAt. case_decide as Hi; [|by left]. right.
  unfold at_index. rewrite decide_True by lia.
  destruct (lookup_lt_is_Some_2 nodes (Z.to_nat i)) as [n Hn]; [lia|].
  exists n. rewrite Hn. split; [by eapply list_elem_of_lookup_2|done].
Qed.




End TreeFocus.

(** ** Writing and reading [aria-owns] *)

Section AriaOwns.
Import TreeView.

Lemma string_app_assoc (a b c : string) : (a +:+ b) +:+ c = a +:+ b +:+ c.
Proof.
  induction a as [|x a IH]; [done|].
  change (String x (a +:+ b) +:+ c = String x (a +:+ b +:+ c)).
  change (String x ((a +:+ b) +:+ c) = String x (a +:+ b +:+ c)). by rewrite IH.
Qed.

Lemma foldl_join_prefix (sep p t : string) (rest : list string) :
  foldl (λ acc y, acc +:+ sep +:+ y) (p +:+ t) rest =
  p +:+ foldl (λ acc y, acc +:+ sep +:+ y) t rest.
Proof.
  revert t. induction rest as [|z rest IH]; intros t; simpl; [done|].
  by rewrite string_app_assoc, IH.
Qed.

Lemma join_cons (sep x y : string) (rest : list string) :
  join sep (x :: y :: rest) = x +:+ sep +:+ join sep (y :: rest).
Proof.
  simpl. rewrite <- (string_app_assoc x sep y), foldl_join_prefix.
  by rewrite string_app_assoc.
Qed.

Lemma splitFrom_piece (cur x tail : string) :
  ","%char ∉ String.list_ascii_of_string x →
  splitFrom ", " 0 cur (x +:+ tail) = splitFrom ", " 0 (cur +:+ x) tail.
Proof.
  revert cur. induction x as [|c x IH]; intros cur Hx.
  - by rewrite string_app_nil_r.
  - simpl in Hx. apply not_elem_of_cons in Hx as [Hc Hx].
    change (String c x +:+ tail) with (String c (x +:+ tail)).
    cbn [splitFrom startsWith]. rewrite bool_decide_eq_false_2 by done.
    cbn [andb]. rewrite IH by done. rewrite string_app_assoc. done.
Qed.

Lemma splitFrom_separator (cur t : string) :
  splitFrom ", " 0 cur (", " +:+ t) = cur :: splitFrom ", " 0 "" t.
Proof.
  change (", " +:+ t) with (String "," (String " " t)).
  cbn [splitFrom startsWith]. rewrite !bool_decide_eq_true_2 by done.
  by destruct t.
Qed.

Lemma splitFrom_join (cur x : string) (rest : list string) :
  Forall (λ i, ","%char ∉ String.list_ascii_of_string i) (x :: rest) →
  splitFrom ", " 0 cur (join ", " (x :: rest)) = (cur +:+ x) :: rest.
Proof.
  revert cur x. induction rest as [|y rest IH]; intros cur x Hids.
  - apply Forall_cons in Hids as [Hx _]. simpl.
    rewrite <- (string_app_nil_r x) at 1. by rewrite splitFrom_piece.
  - apply Forall_cons in Hids as [Hx Hrest].
    rewrite join_cons, splitFrom_piece, splitFrom_separator by done.
    by rewrite IH.
Qed.

(** X23. The [aria-owns] a node writes, its sub-node ids joined by [', '], is
    read back by the ArrowLeft loop of the tree, which splits it at [', '], as
    the same list of ids when no id contains a comma; the empty list of ids
    is read back as one empty id. *)
Theorem aria_owns_round_trip (ids : list string) :
  Forall (λ i, ","%char ∉ String.list_ascii_of_string i) ids →
  split ", " (join ", " ids) = match ids with [] => [""] | _ => ids end.
Proof.
  intros Hids. destruct ids as [|x rest]; [done|].
  unfold split. by rewrite splitFrom_join.
Qed.

End AriaOwns.

(** ** The tree with its nodes *)

Section TreeNodes.
Import TreeDom TreeNode TreeView.
Implicit Types (props : TreeNodeProps) (nodes : list TreeNodeProps).

Lemma classList_nodeClassName props :
  classList (nodeClassName props) =
  "iui-tree-node"
  :: (if default false (isSelected props) then ["iui-active"] else [])
  ++ (if default false (isDisabled props) then ["iui-disabled"] else [])
  ++ from_option classList [] (className (common props)).
Proof.
  unfold nodeClassName.
  destruct (default false (isSelected props)), (default false (isDisabled props)),
    (className (common props)) as [c|]; try (vm_compute; reflexivity).
  all: destruct (nonEmpty c) eqn:Hc;
    [vm_compute; reflexivity|apply nonEmpty_false in Hc as ->; vm_compute; reflexivity].
Qed.

(** X22. The [div] of a [TreeNode] always has the class [iui-tree-node], and
    the tree's selector [.iui-tree-node:not(.iui-disabled)] leaves it out
    exactly when [isDisabled] is true or the [className] property itself
    carries [iui-disabled]. *)
Theorem navigation_skips_exactly_the_disabled_nodes (e : nat) props :
  "iui-tree-node" ∈ classList (nodeClassName props) ∧
  (Enabled (nodeElement e props) ↔
   default false (isDisabled props) = false ∧
   "iui-disabled" ∉ from_option classList [] (className (common props))).
Proof.
  rewrite classList_nodeClassName. split; [apply list_elem_of_here|].
  unfold Enabled. simpl. rewrite bool_decide_eq_false, classList_nodeClassName.
  rewrite not_elem_of_cons, !not_elem_of_app.
  destruct (default false (isSelected props)), (default false (isDisabled props)).
  all: rewrite ?not_elem_of_cons; split; [intros (_ & Hactive & Hoff & Hclass)|intros [Hoff Hclass]].
  all: try done; try (split_and!; try done; apply not_elem_of_nil).
  all: by destruct Hoff as [[] _].
Qed.
Lemma rendered_lookup nodes (e : nat) f :
  rendered nodes !! e = Some f ↔ ∃ props, nodes !! e = Some props ∧ f = nodeElement e props.
Proof.
  unfold rendered. rewrite list_lookup_imap. destruct (nodes !! e) as [props|]; simpl.
  - split; [intros [= <-]; by exists props|]. by intros (? & [= <-] & ->).
  - split; [done|]. by intros (? & ? & _).
Qed.

Lemma rendered_elem nodes f :
  f ∈ rendered nodes → ∃ props, nodes !! elem f = Some props ∧ f = nodeElement (elem f) props.
Proof.
  intros (e & He)%list_elem_of_lookup. apply rendered_lookup in He as (props & Hp & ->).
  by exists props.
Qed.

Lemma rendered_owns_nothing nodes f n :
  parentId f ≠ "" → n ∈ rendered nodes → ¬ Owns f n.
Proof.
  intros Hid (props & _ & ->)%rendered_elem (owns & Howns & Hin). simpl in Howns.
  destruct (default false (hasSubNodes props)); [|done].
  injection Howns as <-. by apply list_elem_of_singleton in Hin.
Qed.

(** X24. In a tree whose nodes are rendered by [TreeNode], the [aria-owns]
    the ArrowLeft loop reads is always the empty string (the context of the
    tree provides no [subNodeIds]), so the loop finds no owner: on a focused
    node that is not expanded, and whose list item has an id that is not
    empty, ArrowLeft does what ArrowUp does. *)
Theorem arrow_left_finds_no_owner_among_tree_nodes nodes (a : nat) f :
  Focused {| treeNodes := rendered nodes; activeElement := a |} f →
  parentId f ≠ "" → expander f ≠ Some true →
  handleKeyDown {| treeNodes := rendered nodes; activeElement := a |} "ArrowLeft" =
  handleKeyDown {| treeNodes := rendered nodes; activeElement := a |} "ArrowUp".
Proof.
  intros Hfocused Hid Hexp.
  destruct (handleKeyDown_focused _ f "ArrowLeft" Hfocused) as (ci & _ & _ & -> & ->).
  rewrite !decide_False, decide_True by done.
  rewrite parentIndexOf_none.
  - rewrite decide_False by (intros Hne; by apply Hne). by destruct (expander f) as [[]|].
  - apply Forall_forall. intros n [_ Hn]%list_elem_of_filter.
    by apply (rendered_owns_nothing nodes).
Qed.

Lemma nodeElement_enabled (e : nat) props :
  Enabled (nodeElement e props) → default false (isDisabled props) = false.
Proof.
  unfold Enabled. simpl. rewrite bool_decide_eq_false, classList_nodeClassName.
  intros Hoff. destruct (default false (isDisabled props)); [|done].
  destruct Hoff. apply list_elem_of_further, elem_of_app. right.
  apply list_elem_of_here.
Qed.

(** X25. In a tree whose nodes are rendered by [TreeNode], with an enabled
    node focused: Enter, the space character and "Spacebar" call
    [onNodeSelected(nodeId, !isSelected)] of that node when the callback is
    supplied and nothing otherwise; on a node with sub-nodes, ArrowRight
    (collapsed) or ArrowLeft (expanded) calls
    [onNodeExpanded(nodeId, !isExpanded)] and stops the propagation of the
    click; ArrowDown and ArrowUp call nothing. *)
Theorem keys_reach_the_callbacks_of_the_focused_node nodes (a : nat) f (selectable : bool) :
  Focused {| treeNodes := rendered nodes; activeElement := a |} f →
  ∃ props, nodes !! a = Some props ∧ f = nodeElement a props ∧
    default false (isDisabled props) = false ∧
    (∀ key : string, key = "Enter" ∨ key = " " ∨ key = "Spacebar" →
       keyCalls nodes selectable a key =
         Normal (if selectable
                 then [NodeSelected (nodeId props) (negb (default false (isSelected props)))]
                 else [])) ∧
    (default false (hasSubNodes props) = true →
     keyCalls nodes selectable a
       (if default false (isExpanded props) then "ArrowLeft" else "ArrowRight") =
       Normal [NodeExpanded (nodeId props) (negb (default false (isExpanded props)));
               StopPropagation]) ∧
    (∀ key : string, key = "ArrowDown" ∨ key = "ArrowUp" →
       keyCalls nodes selectable a key = Normal []).
Proof.
  intros Hfocused. pose proof Hfocused as (_ & Hin & Hen & Hactive).
  simpl in Hin, Hactive. apply rendered_elem in Hin as (props & Hprops & Hf).
  rewrite <- Hactive in Hprops, Hf. exists props.
  assert (Hdis : default false (isDisabled props) = false).
  { rewrite Hf in Hen. by apply nodeElement_enabled in Hen. }
  split_and!; [done..| | |].
  - intros key Hkey. unfold keyCalls.
    destruct (handleKeyDown_focused _ f key Hfocused) as (ci & _ & _ & _ & ->).
    destruct Hkey as [-> | [-> | ->]]; repeat (rewrite decide_False by done);
      rewrite decide_True by first [by left | by right; left | by right; right].
    all: simpl; rewrite <- Hactive, Hprops; unfold onNodeClick; rewrite Hdis;
      by destruct selectable.
  - intros Hsub. unfold keyCalls.
    assert (Hexp : expander f = Some (default false (isExpanded props))).
    { rewrite Hf. simpl. by rewrite Hsub. }
    destruct (default false (isExpanded props)) eqn:Hexpanded.
    + destruct (handleKeyDown_focused _ f "ArrowLeft" Hfocused) as (ci & _ & _ & _ & ->).
      rewrite !decide_False, decide_True by done. rewrite Hexp.
      rewrite focusAt_out by lia. simpl. rewrite <- Hactive, Hprops.
      unfold onExpanderClick. by rewrite Hexpanded.
    + destruct (handleKeyDown_focused _ f "ArrowRight" Hfocused) as (ci & _ & _ & _ & ->).
      rewrite !decide_False, decide_True by done. rewrite Hexp.
      simpl. rewrite <- Hactive, Hprops.
      unfold onExpanderClick. by rewrite Hexpanded.
  - intros key Hkey. unfold keyCalls.
    destruct (handleKeyDown_focused _ f key Hfocused) as (ci & _ & Hdown & Hup & _).
    assert (Hmove : ∀ i, match focusAt (enabledNodes
                                 {| treeNodes := rendered nodes; activeElement := a |}) [] i with
                         | Normal effects => Normal (concat (calls nodes selectable <$> effects))
                         | Throw e => Throw e
                         | OutOfFuel => OutOfFuel
                         end = Normal []).
    { intros i. by destruct (focusAt_total (enabledNodes
                   {| treeNodes := rendered nodes; activeElement := a |}) [] i)
        as [->|(n & _ & ->)]. }
    destruct Hkey as [-> | ->]; [rewrite Hdown|rewrite Hup]; apply Hmove.
Qed.

End TreeNodes.

(** ** The handlers and the style of a node *)

Section NodeHandlers.
Import TreeNode TreeView.
Implicit Types (props : TreeNodeProps).

(** X26. A click on the [div] of a node calls nothing but
    [onNodeSelected(nodeId, !isSelected)], and only on a node that is not
    disabled; a double click calls nothing but
    [onNodeExpanded(nodeId, !isExpanded)], and only on a node with sub-nodes.
    So a disabled node cannot be selected by a click, but a disabled node
    with sub-nodes is still expanded or collapsed by a double click. *)
Theorem disabled_nodes_still_expand_on_double_click props (selectable : bool) :
  (∀ c, c ∈ onNodeClick props selectable →
        c = NodeSelected (nodeId props) (negb (default false (isSelected props))) ∧
        default false (isDisabled props) = false ∧ selectable = true) ∧
  (∀ c, c ∈ onDoubleClick props →
        c = NodeExpanded (nodeId props) (negb (default false (isExpanded props))) ∧
        default false (hasSubNodes props) = true) ∧
  (default false (isDisabled props) = true → default false (hasSubNodes props) = true →
   onNodeClick props selectable = [] ∧
   onDoubleClick props =
     [NodeExpanded (nodeId props) (negb (default false (isExpanded props)))]).
Proof.
  unfold onNodeClick, onDoubleClick. split_and!.
  - intros c. destruct (default false (isDisabled props)); [by intros ?%elem_of_nil|].
    destruct selectable; [|by intros ?%elem_of_nil].
    by intros ->%list_elem_of_singleton.
  - intros c. destruct (default false (hasSubNodes props)); [|by intros ?%elem_of_nil].
    by intros ->%list_elem_of_singleton.
  - by intros -> ->.
Qed.

End NodeHandlers.

Section Indentation.
Context {T : Type}.
Import TreeView.

(** X27. With a [getNode] that builds a new object on every call and a
    finite expanded part of the data, every node the tree renders gets the
    number of its ancestors as [nodeDepth]; unless the [style] of the node
    says otherwise, its [div] is styled with that number as [--level] where
    the browser supports it, and with a left margin of 28 times that number
    elsewhere. *)
Theorem nodes_are_indented_by_their_depth (describe : T → NodeData T)
    (getNode : GetNode T) (rank : T → nat) (fuel : nat) (data : list T) (h : heap T) :
  allocates describe getNode →
  (∀ e c, truthy (isExpanded (describe e)) = true → c ∈ children describe e →
          rank c < rank e) →
  (∀ r, r ∈ data → rank r < fuel) →
  ∃ h' flatList paths,
    flatNodesList getNode fuel data h = Normal (h', flatList) ∧
    (∀ p, p ∈ paths ↔ ∃ e, ShownIn describe data p e) ∧
    Forall2 (λ flatNode p,
      nodeDepth h' flatNode = length p - 1 ∧
      ∀ style : gmap string StyleValue,
        (style !! "--level" = None →
         styleDepth true (nodeDepth h' flatNode) style !! "--level" =
           Some (StyleNumber (length p - 1))) ∧
        (style !! "marginLeft" = None →
         styleDepth false (nodeDepth h' flatNode) style !! "marginLeft" =
           Some (StyleNumber (28 * (length p - 1)))))
      flatList paths.
Proof.
  intros Halloc Hrank Hfuel.
  destruct (flatNodesList_allocating describe getNode Halloc rank Hrank fuel data h Hfuel)
    as (h' & flatList & Hrun & _ & paths & Hpaths & _ & Hentries).
  exists h', flatList, paths. split_and!; [done..|].
  eapply Forall2_impl; [done|]. intros flatNode p (e & _ & Hobj).
  assert (Hdepth : nodeDepth h' flatNode = length p - 1).
  { unfold nodeDepth. by rewrite Hobj. }
  split; [done|]. intros style. rewrite Hdepth. unfold styleDepth. split; intros Hstyle.
  - rewrite lookup_union_r by done. apply lookup_singleton_eq.
  - rewrite lookup_union_r by done. rewrite lookup_singleton_eq.
    case_decide as Hzero; [by rewrite Hzero|]. do 2 f_equal. lia.
Qed.

End Indentation.

(** ** The further properties on the documented inputs *)

Lemma handleKeyDown_touches_enabled_nodes_only_witness :
  (∀ e, Focus e ∈ [Focus 6; PreventDefault] →
        ∃ n, n ∈ Samples.testNodes ∧ Enabled n ∧ elem n = e) ∧
  (∀ e, Click e ∈ [Focus 6; PreventDefault] ∨ ClickExpander e ∈ [Focus 6; PreventDefault] →
        e = 4 ∧ ∃ n, n ∈ Samples.testNodes ∧ Enabled n ∧ elem n = e).
Proof.
  apply (handleKeyDown_touches_enabled_nodes_only
           {| treeNodes := Samples.testNodes; activeElement := 4 |} "ArrowRight").
  vm_compute. reflexivity.
Defined.

Lemma testNodes_focused (f : NodeElement) :
  f ∈ Samples.testNodes → Enabled f →
  TreeDom.Focused {| treeNodes := Samples.testNodes; activeElement := elem f |} f.
Proof.
  intros Hin Hen. split_and!; [|done..].
  apply (bool_decide_unpack _). vm_compute. exact I.
Defined.


Lemma arrow_right_expands_or_moves_down_witness :
  handleKeyDown {| treeNodes := Samples.testNodes; activeElement := 6 |} "ArrowRight" =
    Normal [ClickExpander 6] ∧
  handleKeyDown {| treeNodes := Samples.testNodes; activeElement := 4 |} "ArrowRight" =
    handleKeyDown {| treeNodes := Samples.testNodes; activeElement := 4 |} "ArrowDown".
Proof.
  split.
  - apply (arrow_right_expands_or_moves_down _ Samples.node312); [|reflexivity].
    apply (testNodes_focused Samples.node312); [|reflexivity].
    apply list_elem_of_In. vm_compute. tauto.
  - apply (arrow_right_expands_or_moves_down _ Samples.node31); [|discriminate].
    apply (testNodes_focused Samples.node31); [|reflexivity].
    apply list_elem_of_In. vm_compute. tauto.
Defined.


Lemma activation_keys_click_the_focused_node_witness :
  handleKeyDown {| treeNodes := Samples.testNodes; activeElement := 3 |} " " =
    Normal [Click 3; PreventDefault] ∧
  activeAfter {| treeNodes := Samples.testNodes; activeElement := 3 |}
    [Click 3; PreventDefault] = 3.
Proof.
  apply (activation_keys_click_the_focused_node _ Samples.node3).
  - apply (testNodes_focused Samples.node3); [|reflexivity].
    apply list_elem_of_In. vm_compute. tauto.
  - right. left. reflexivity.
Defined.

Lemma other_keys_and_empty_trees_do_nothing_witness :
  handleKeyDown {| treeNodes := Samples.testNodes; activeElement := 3 |} "Tab" = Normal [] ∧
  handleKeyDown {| treeNodes := [Samples.node2; Samples.node311]; activeElement := 0 |}
    "ArrowDown" = Normal [].
Proof.
  split.
  - apply (other_keys_and_empty_trees_do_nothing _ "Tab") with (f := Samples.node3).
    + apply (testNodes_focused Samples.node3); [|reflexivity].
      apply list_elem_of_In. vm_compute. tauto.
    + unfold TreeDom.handledKeys. rewrite !not_elem_of_cons.
      split_and!; try discriminate. apply not_elem_of_nil.
  - apply (other_keys_and_empty_trees_do_nothing _ "ArrowDown").
    repeat constructor.
Defined.

Lemma generated_ids_resolve_witness :
  let s := ComboBox.mapOptions Samples.demoProps (ComboBox.initialState "cb" Samples.demoProps) in
  ComboBox.xid (Samples.demoItem 2) = Some ("cb" +:+ "-option" +:+ pretty 2) ∧
  (∀ (j : nat) o', ComboBox.extendedOriginalOptions s !! j = Some o' →
                   ComboBox.xid o' = ComboBox.xid (Samples.demoItem 2) → j = 2) ∧
  ComboView.Resolvable s (Samples.demoItem 2).
Proof.
  apply (generated_ids_resolve Samples.demoProps
           (ComboBox.initialState "cb" Samples.demoProps)).
  - intros option Hin. apply list_elem_of_In in Hin. simpl in Hin.
    destruct Hin as [<-|[<-|[<-|[]]]]; reflexivity.
  - vm_compute. reflexivity.
Defined.

Lemma mount_settles_witness :
  ComboBox.selectedValueId (ComboBox.mount 2 "cb" Inputs.valuedProps) = Some "cb-option1" ∧
  ComboBox.inputValue (ComboBox.mount 2 "cb" Inputs.valuedProps) = "Item 2" ∧
  ComboBox.focusedIndex (ComboBox.mount 2 "cb" Inputs.valuedProps) =
    Some (ComboBox.extend "cb" 1 (Samples.item "Item 2" 2 None)).
Proof.
  destruct (mount_settles Inputs.valuedProps "cb" 0) as (_ & _ & _ & _ & _ & _ & _ & _ & Hvalue).
  apply (Hvalue 2 1 (Samples.item "Item 2" 2 None) "cb-option1").
  - reflexivity.
  - reflexivity.
  - reflexivity.
  - intros [|j] option' Hj Hoption'; [|lia]. injection Hoption' as <-. discriminate.
  - vm_compute. reflexivity.
  - discriminate.
  - intros [|[|[|j]]] option' Hj Hoption'; try lia; [|discriminate].
    injection Hoption' as <-. vm_compute. discriminate.
Defined.

Lemma arrows_move_to_the_nearest_enabled_option_witness :
  ComboBox.focusedIndex
    (ComboBox.applyAll (Samples.opened Samples.demoProps)
       (ComboBox.onKeyDown (Samples.opened Samples.demoProps) "ArrowDown")) =
  Some (Samples.demoItem 0).
Proof.
  destruct (arrows_move_to_the_nearest_enabled_option (Samples.opened Samples.demoProps))
    as (Hdown & _ & _).
  { vm_compute. reflexivity. }
  apply (Hdown 0).
  - vm_compute. reflexivity.
  - vm_compute. reflexivity.
  - vm_compute. reflexivity.
  - intros j o' _ _ Hj. lia.
Defined.

Lemma escape_and_tab_restore_the_selection_witness :
  let s' := ComboBox.after 2 Samples.demoProps (Inputs.typed "zz")
              (ComboBox.onKeyDown (Inputs.typed "zz") "Escape") in
  ComboBox.isOpen s' = false ∧
  ComboBox.selectedValueId s' = ComboBox.selectedValueId (Inputs.typed "zz") ∧
  ComboBox.focusedIndex s' = ComboBox.selectedOption (Inputs.typed "zz") ∧
  ComboBox.inputValue s' =
    default (ComboBox.inputValue (Inputs.typed "zz"))
      (ComboBox.xlabel <$> ComboBox.selectedOption (Inputs.typed "zz")) ∧
  ComboBox.filteredOptions s' = ComboBox.filteredOptions (Inputs.typed "zz").
Proof.
  apply (escape_and_tab_restore_the_selection Samples.demoProps (Inputs.typed "zz") "Escape" 1).
  - vm_compute. reflexivity.
  - by left.
Defined.

Lemma typing_keeps_the_focus_in_the_list_witness :
  ComboBox.focusedIndex
    (ComboBox.after 2 Samples.demoProps Inputs.reopened (ComboBox.onInput "item")) =
  Some (Samples.demoItem 1).
Proof.
  destruct (typing_keeps_the_focus_in_the_list Samples.demoProps Inputs.reopened "item" 1)
    as [_ Hkept].
  - vm_compute. reflexivity.
  - reflexivity.
  - vm_compute. discriminate.
  - apply (bool_decide_unpack _). vm_compute. exact I.
  - apply (bool_decide_unpack _). vm_compute. exact I.
  - intros f Hf. vm_compute in Hf. injection Hf as <-.
    apply list_elem_of_In. vm_compute. tauto.
  - intros o Ho. vm_compute in Ho. injection Ho as <-.
    apply list_elem_of_In. vm_compute. tauto.
  - apply Hkept.
    + vm_compute. reflexivity.
    + apply list_elem_of_In. vm_compute. tauto.
Defined.

Lemma custom_filter_results_take_the_original_fields_witness :
  length (ComboBox.filteredOptions Inputs.customTyped) = 2.
Proof.
  destruct (custom_filter_results_take_the_original_fields Inputs.customProps
              (Samples.opened Inputs.customProps) Inputs.customFilter "x" 1)
    as [Hlength _].
  - vm_compute. reflexivity.
  - reflexivity.
  - vm_compute. discriminate.
  - discriminate.
  - vm_compute. discriminate.
  - exact Hlength.
Defined.

Lemma menuItems_lists_the_filtered_options_witness :
  ComboBox.menuItems Samples.demoProps Inputs.reopened =
  Normal [Some (ComboBox.OptionElement false (Some "cb-option0") false false);
          Some (ComboBox.OptionElement false (Some "cb-option1") true true);
          Some (ComboBox.OptionElement false (Some "cb-option2") false false)].
Proof.
  rewrite (menuItems_lists_the_filtered_options Samples.demoProps Inputs.reopened).
  - vm_compute. reflexivity.
  - split_and!; vm_compute; reflexivity.
  - vm_compute. discriminate.
  - intros o Ho. apply list_elem_of_In in Ho. vm_compute in Ho.
    destruct Ho as [<-|[<-|[<-|[]]]]; eexists; (split; [reflexivity|]);
      vm_compute; by eexists.
Defined.


Lemma virtualized_list_id_differs_witness :
  attribute (ComboBox.inputElementProps Inputs.virtualProps
               (Samples.opened Inputs.virtualProps)) "aria-controls" =
    Some (PStr ("cb" +:+ "-list")) ∧
  ∃ listId,
    ComboBox.dropdownContent Inputs.virtualProps (Samples.opened Inputs.virtualProps) =
      ComboBox.VirtualMenu listId 3 None ∧
    listId ≠ "cb" +:+ "-list".
Proof.
  apply (virtualized_list_id_differs Inputs.virtualProps (Samples.opened Inputs.virtualProps)).
  - reflexivity.
  - vm_compute. reflexivity.
  - reflexivity.
Defined.


Lemma testTreeNodes_focused :
  TreeDom.Focused
    {| treeNodes := TreeView.rendered Inputs.testTreeNodes; activeElement := 5 |}
    (TreeView.nodeElement 5 (Inputs.treeNode "Node-3-1-2" true false false)).
Proof.
  split_and!.
  - apply (bool_decide_unpack _). vm_compute. exact I.
  - apply list_elem_of_In. vm_compute. tauto.
  - vm_compute. reflexivity.
  - reflexivity.
Defined.

Lemma arrow_left_finds_no_owner_among_tree_nodes_witness :
  handleKeyDown {| treeNodes := TreeView.rendered Inputs.testTreeNodes; activeElement := 5 |}
    "ArrowLeft" =
  handleKeyDown {| treeNodes := TreeView.rendered Inputs.testTreeNodes; activeElement := 5 |}
    "ArrowUp".
Proof.
  apply (arrow_left_finds_no_owner_among_tree_nodes Inputs.testTreeNodes 5
           (TreeView.nodeElement 5 (Inputs.treeNode "Node-3-1-2" true false false))).
  - apply testTreeNodes_focused.
  - vm_compute. discriminate.
  - vm_compute. discriminate.
Defined.

Lemma keys_reach_the_callbacks_of_the_focused_node_witness :
  ∃ props, Inputs.testTreeNodes !! 5 = Some props ∧
    TreeView.nodeElement 5 (Inputs.treeNode "Node-3-1-2" true false false) =
      TreeView.nodeElement 5 props ∧
    default false (TreeNode.isDisabled props) = false ∧
    (∀ key : string, key = "Enter" ∨ key = " " ∨ key = "Spacebar" →
       TreeView.keyCalls Inputs.testTreeNodes true 5 key =
         Normal [TreeView.NodeSelected (TreeNode.nodeId props)
                   (negb (default false (TreeNode.isSelected props)))]) ∧
    (default false (TreeNode.hasSubNodes props) = true →
     TreeView.keyCalls Inputs.testTreeNodes true 5
       (if default false (TreeNode.isExpanded props) then "ArrowLeft" else "ArrowRight") =
       Normal [TreeView.NodeExpanded (TreeNode.nodeId props)
                 (negb (default false (TreeNode.isExpanded props)));
               TreeView.StopPropagation]) ∧
    (∀ key : string, key = "ArrowDown" ∨ key = "ArrowUp" →
       TreeView.keyCalls Inputs.testTreeNodes true 5 key = Normal []).
Proof.
  apply (keys_reach_the_callbacks_of_the_focused_node Inputs.testTreeNodes 5 _ true).
  apply testTreeNodes_focused.
Defined.

Lemma aria_owns_round_trip_witness :
  TreeView.split ", " (TreeView.join ", " ["Node-3-1"; "Node-3-2"]) =
  ["Node-3-1"; "Node-3-2"].
Proof.
  apply (aria_owns_round_trip ["Node-3-1"; "Node-3-2"]).
  repeat constructor; apply (bool_decide_unpack _); vm_compute; exact I.
Defined.

Lemma focusing_opens_and_filters_witness :
  let s' := ComboBox.after 2 Samples.demoProps (ComboBox.mount 3 "cb" Samples.demoProps)
              ComboBox.onFocus in
  ComboBox.isOpen s' = true ∧ ComboBox.inputValue s' = "" ∧
  ComboBox.selectedValueId s' = None ∧
  ComboBox.filteredOptions s' =
    [Samples.demoItem 0; Samples.demoItem 1; Samples.demoItem 2].
Proof.
  destruct (focusing_opens_and_filters Samples.demoProps
              (ComboBox.mount 3 "cb" Samples.demoProps) 1)
    as (Hopen & Hinput & Hselected & Hfiltered).
  - vm_compute. reflexivity.
  - reflexivity.
  - split_and!; [exact Hopen|rewrite Hinput|rewrite Hselected|rewrite Hfiltered];
      vm_compute; reflexivity.
Defined.

Lemma nodes_are_indented_by_their_depth_witness :
  ∃ h' flatList paths,
    flatNodesList (getNode_fresh (Samples.testDescribe ["Node-1"] [])) 4
      Samples.basicData ∅ = Normal (h', flatList) ∧
    (∀ p, p ∈ paths ↔
          ∃ e, ShownIn (Samples.testDescribe ["Node-1"] []) Samples.basicData p e) ∧
    Forall2 (λ flatNode p,
      TreeView.nodeDepth h' flatNode = length p - 1 ∧
      ∀ style : gmap string TreeView.StyleValue,
        (style !! "--level" = None →
         TreeView.styleDepth true (TreeView.nodeDepth h' flatNode) style !! "--level" =
           Some (TreeView.StyleNumber (length p - 1))) ∧
        (style !! "marginLeft" = None →
         TreeView.styleDepth false (TreeView.nodeDepth h' flatNode) style !! "marginLeft" =
           Some (TreeView.StyleNumber (28 * (length p - 1)))))
      flatList paths.
Proof.
  apply (nodes_are_indented_by_their_depth _ _ Samples.height).
  - apply getNode_fresh_allocates.
  - intros e c _ Hc. by apply height_subItems.
  - intros r Hr. apply list_elem_of_In in Hr. simpl in Hr.
    destruct Hr as [<-|[<-|[]]]; vm_compute; lia.
Defined.

Lemma arrow_up_moves_the_focus_down_in_a_filtered_list_witness :
  ComboBox.filteredOptions Inputs.pairedFocused =
    [Inputs.pairedItem "C2" 2; Inputs.pairedItem "D2" 3] ∧
  ComboBox.focusedIndex Inputs.pairedFocused = Some (Inputs.pairedItem "C2" 2) ∧
  ComboBox.focusedIndex
    (ComboBox.applyAll Inputs.pairedFocused
       (ComboBox.onKeyDown Inputs.pairedFocused "ArrowUp")) =
    Some (Inputs.pairedItem "D2" 3) ∧
  ComboBox.focusedIndex
    (ComboBox.applyAll Inputs.pairedFocused
       (ComboBox.onKeyDown Inputs.pairedFocused "ArrowDown")) =
    Some (Inputs.pairedItem "C2" 2).
Proof.
  destruct (arrow_up_moves_the_focus_down_in_a_filtered_list Inputs.pairedFocused 0 2 1
              (Inputs.pairedItem "C2" 2) (Inputs.pairedItem "D2" 3)) as [Hup Hdown].
  - vm_compute. reflexivity.
  - vm_compute. reflexivity.
  - reflexivity.
  - vm_compute. reflexivity.
  - vm_compute. reflexivity.
  - lia.
  - lia.
  - reflexivity.
  - intros j o' _ Hlow Hhigh. lia.
  - split_and!; [vm_compute; reflexivity|vm_compute; reflexivity|exact Hup|].
    apply Hdown. vm_compute. lia.
Defined.


